(** * Outlivion backend: the external-integration layer

    A shallow embedding of [src/services/mercuryo.ts] (the payment client:
    webhook signature verification and webhook parsing) and of the panel
    client that the specification describes (session handling, bounded
    retry, provisioning operations, connection descriptor). *)

From Stdlib Require Import String Ascii DecimalString.
From Stdlib Require Import ZArith Bool Lia Arith List.
Import ListNotations.

Local Open Scope Z_scope.

(** * JavaScript strings

    A JavaScript string is a sequence of 16-bit code units.  [===] on two
    strings compares them code unit by code unit. *)

Definition jsstring := list Z.

Definition code_unit (c : Z) : Prop := 0 <= c < 65536.
Definition well_formed (s : jsstring) : Prop := Forall code_unit s.

Fixpoint strict_eq (a b : jsstring) : bool :=
  match a, b with
  | [], [] => true
  | x :: a', y :: b' => (x =? y) && strict_eq a' b'
  | _, _ => false
  end.

(** An ASCII literal of the source, as a JavaScript string. *)
Fixpoint js (s : string) : jsstring :=
  match s with
  | EmptyString => []
  | String c r => Z.of_nat (nat_of_ascii c) :: js r
  end.

(** Two strings differ in exactly one bit: same length, one position [i]
    where one code unit is the other with bit [k] (of 16) inverted. *)
Fixpoint one_bit_apart (a b : jsstring) : Prop :=
  match a, b with
  | x :: a', y :: b' =>
      ((exists k, 0 <= k < 16 /\ y = Z.lxor x (Z.shiftl 1 k)) /\ a' = b')
      \/ (x = y /\ one_bit_apart a' b')
  | _, _ => False
  end.

(** * Node's [crypto]: UTF-8 encoding of string input, SHA-256, HMAC, hex *)

Module Crypto.

Definition is_high_surrogate (c : Z) : bool := (0xD800 <=? c) && (c <=? 0xDBFF).
Definition is_low_surrogate (c : Z) : bool := (0xDC00 <=? c) && (c <=? 0xDFFF).

(** [Buffer.from(s, 'utf8')], which [Hmac.update(s)] and the string key of
    [createHmac] go through: a surrogate pair is one four-byte sequence, an
    unpaired surrogate is written as U+FFFD (EF BF BD). *)
Fixpoint utf8 (s : jsstring) : list Z :=
  match s with
  | [] => []
  | c :: r =>
      if c <? 0x80 then c :: utf8 r
      else if c <? 0x800 then
        Z.lor 0xC0 (Z.shiftr c 6) :: Z.lor 0x80 (Z.land c 0x3F) :: utf8 r
      else if is_high_surrogate c then
        match r with
        | d :: r' =>
            if is_low_surrogate d then
              let cp := 0x10000 + Z.shiftl (c - 0xD800) 10 + (d - 0xDC00) in
              Z.lor 0xF0 (Z.shiftr cp 18)
                :: Z.lor 0x80 (Z.land (Z.shiftr cp 12) 0x3F)
                :: Z.lor 0x80 (Z.land (Z.shiftr cp 6) 0x3F)
                :: Z.lor 0x80 (Z.land cp 0x3F) :: utf8 r'
            else 0xEF :: 0xBF :: 0xBD :: utf8 r
        | [] => [0xEF; 0xBF; 0xBD]
        end
      else if is_low_surrogate c then 0xEF :: 0xBF :: 0xBD :: utf8 r
      else
        Z.lor 0xE0 (Z.shiftr c 12)
          :: Z.lor 0x80 (Z.land (Z.shiftr c 6) 0x3F)
          :: Z.lor 0x80 (Z.land c 0x3F) :: utf8 r
  end.

(** ** SHA-256 (FIPS 180-4) on 32-bit words held in [Z] *)

Definition w32 (x : Z) : Z := x mod 2 ^ 32.
Definition add32 (x y : Z) : Z := w32 (x + y).
Definition rotr (n x : Z) : Z :=
  Z.lor (Z.shiftr x n) (w32 (Z.shiftl x (32 - n))).
Definition not32 (x : Z) : Z := 2 ^ 32 - 1 - x.

Definition Ch (x y z : Z) : Z := Z.lxor (Z.land x y) (Z.land (not32 x) z).
Definition Maj (x y z : Z) : Z :=
  Z.lxor (Z.lxor (Z.land x y) (Z.land x z)) (Z.land y z).
Definition Sigma0 (x : Z) : Z := Z.lxor (Z.lxor (rotr 2 x) (rotr 13 x)) (rotr 22 x).
Definition Sigma1 (x : Z) : Z := Z.lxor (Z.lxor (rotr 6 x) (rotr 11 x)) (rotr 25 x).
Definition sigma0 (x : Z) : Z := Z.lxor (Z.lxor (rotr 7 x) (rotr 18 x)) (Z.shiftr x 3).
Definition sigma1 (x : Z) : Z := Z.lxor (Z.lxor (rotr 17 x) (rotr 19 x)) (Z.shiftr x 10).

(** The round constants are the first 32 fractional bits of the cube roots
    of the first 64 primes, the initial hash value those of the square roots
    of the first 8; they are computed rather than tabulated. *)
Definition is_prime (n : nat) : bool :=
  forallb (fun d => negb (Nat.eqb (n mod d) 0)) (seq 2 (n - 2)).
Definition primes64 : list Z :=
  Eval vm_compute in map Z.of_nat (filter is_prime (seq 2 310)).

Fixpoint cbrt_bits (fuel : nat) (n r : Z) : Z :=
  match fuel with
  | O => r
  | S f =>
      let c := r + 2 ^ Z.of_nat f in
      cbrt_bits f n (if c * c * c <=? n then c else r)
  end.
Definition cbrt (n : Z) : Z := cbrt_bits 40 n 0.

Definition K256 : list Z :=
  Eval vm_compute in map (fun p => w32 (cbrt (p * 2 ^ 96))) primes64.
Definition H256 : list Z :=
  Eval vm_compute in map (fun p => w32 (Z.sqrt (p * 2 ^ 64))) (firstn 8 primes64).

Definition be32 (b : list Z) : Z :=
  fold_left (fun acc x => acc * 256 + x) (firstn 4 b) 0.

Fixpoint words (n : nat) (b : list Z) : list Z :=
  match n with
  | O => []
  | S n' => be32 b :: words n' (skipn 4 b)
  end.

Definition be_bytes (n : nat) (x : Z) : list Z :=
  map (fun i => Z.shiftr x (8 * Z.of_nat i) mod 256) (rev (seq 0 n)).

(** Message schedule: [w] holds the words computed so far, newest first. *)
Fixpoint schedule (n : nat) (w : list Z) : list Z :=
  match n with
  | O => w
  | S n' =>
      let x := add32 (add32 (sigma1 (nth 1 w 0)) (nth 6 w 0))
                     (add32 (sigma0 (nth 14 w 0)) (nth 15 w 0)) in
      schedule n' (x :: w)
  end.

Definition round (s : list Z) (kw : Z * Z) : list Z :=
  match s with
  | [a; b; c; d; e; f; g; h] =>
      let t1 := add32 (add32 (add32 h (Sigma1 e)) (add32 (Ch e f g) (fst kw))) (snd kw) in
      let t2 := add32 (Sigma0 a) (Maj a b c) in
      [add32 t1 t2; a; b; c; add32 d t1; e; f; g]
  | _ => s
  end.

Definition compress (h : list Z) (block : list Z) : list Z :=
  let w := rev (schedule 48 (rev (words 16 block))) in
  let s := fold_left round (combine K256 w) h in
  map (fun p => add32 (fst p) (snd p)) (combine h s).

Definition pad (m : list Z) : list Z :=
  let l := Z.of_nat (length m) in
  let z := Z.to_nat ((55 - l) mod 64) in
  m ++ [0x80] ++ repeat 0 z ++ be_bytes 8 (8 * l).

Fixpoint blocks (n : nat) (h : list Z) (b : list Z) : list Z :=
  match n with
  | O => h
  | S n' => blocks n' (compress h (firstn 64 b)) (skipn 64 b)
  end.

Definition sha256 (m : list Z) : list Z :=
  let p := pad m in
  flat_map (be_bytes 4) (blocks (length p / 64) H256 p).

(** ** HMAC (RFC 2104) with SHA-256, block size 64 *)

Definition hmac_sha256 (key msg : list Z) : list Z :=
  let k0 := if (64 <? Z.of_nat (length key)) then sha256 key else key in
  let k := k0 ++ repeat 0 (64 - length k0) in
  sha256 (map (Z.lxor 0x5C) k ++ sha256 (map (Z.lxor 0x36) k ++ msg)).

(** ** [digest('hex')]: two lowercase hexadecimal digits per byte *)

Definition hex_digit (d : Z) : Z := if d <? 10 then 48 + d else 87 + d.
Definition hex (b : list Z) : jsstring :=
  flat_map (fun x => [hex_digit (x / 16); hex_digit (x mod 16)]) b.

(** [crypto.createHmac('sha256', key).update(data).digest('hex')] *)
Definition createHmac_sha256_hex (key data : jsstring) : jsstring :=
  hex (hmac_sha256 (utf8 key) (utf8 data)).

End Crypto.

(** * The payment client, [src/services/mercuryo.ts] *)

Module Mercuryo.

(** Values that can reach [body: any]; [amount] and the like are integral. *)
#[local] Unset Elimination Schemes.
Inductive JsValue : Type :=
| JsUndefined
| JsNull
| JsBoolean (b : bool)
| JsNumber (n : Z)
| JsString (s : jsstring)
| JsArray (items : list JsValue)
| JsObject (props : list (jsstring * JsValue)).
#[local] Set Elimination Schemes.

Inductive JsError : Type :=
| Error (message : string)
| TypeError (message : string)
| SyntaxError (message : string).

Inductive Completion (A : Type) : Type :=
| Return (a : A)
| Throw (e : JsError).
Arguments Return {A} a.
Arguments Throw {A} e.

(** Calls into the runtime that a method makes, in order. *)
Inductive Call : Type :=
| CallStringify (v : JsValue)
| CallHmac (data : jsstring)
| CallParse (text : jsstring).

Definition M (A : Type) : Type := (list Call * Completion A)%type.

Definition ret {A} (a : A) : M A := ([], Return a).
Definition throw {A} (e : JsError) : M A := ([], Throw e).
Definition bind {A B} (m : M A) (k : A -> M B) : M B :=
  match m with
  | (t, Return a) => let (t', r) := k a in (t ++ t', r)
  | (t, Throw e) => (t, Throw e)
  end.
Definition call {A} (c : Call) (r : Completion A) : M A := ([c], r).

Notation "x <- m ;; k" := (bind m (fun x => k))
  (at level 61, m at next level, right associativity).

Definition trace {A} (m : M A) : list Call := fst m.
Definition outcome {A} (m : M A) : Completion A := snd m.

Record MercuryoConfig : Type := {
  cfg_apiKey : jsstring;
  cfg_secret : jsstring;
  cfg_webhookSecret : jsstring
}.

Record MercuryoService : Type := {
  apiKey : jsstring;
  secret : jsstring;
  webhookSecret : jsstring;
  baseUrl : jsstring
}.

Definition constructor (config : MercuryoConfig) : MercuryoService :=
  {| apiKey := cfg_apiKey config;
     secret := cfg_secret config;
     webhookSecret := cfg_webhookSecret config;
     baseUrl := js "https://api.mercuryo.io" |}.

(** [verifyWebhookSignature(payload, signature)], lines 81-88. *)
Definition calculatedSignature (this : MercuryoService)
    (payload : jsstring) : jsstring :=
  Crypto.createHmac_sha256_hex (webhookSecret this) payload.

Definition verifyWebhookSignature (this : MercuryoService)
    (payload signature : jsstring) : bool :=
  strict_eq (calculatedSignature this payload) signature.

Definition typeof_string (v : JsValue) : bool :=
  match v with JsString _ => true | _ => false end.

Section Runtime.

(** The ECMAScript built-ins the method calls.  [JSON.stringify] yields a
    string or [undefined] ([None]), or throws; [JSON.parse] yields a value
    or throws. *)
Variable JSON_stringify : JsValue -> Completion (option jsstring).
Variable JSON_parse : jsstring -> Completion JsValue.

(** The value of [payload] at line 94; TypeScript types it [string], at run
    time it is [undefined] when [JSON.stringify] returns that. *)
Definition payload_of (body : JsValue) : M (option jsstring) :=
  match body with
  | JsString s => ret (Some s)
  | _ => call (CallStringify body) (JSON_stringify body)
  end.

(** The call at line 96, as it runs: [Hmac.update] rejects a value that is
    not a string with a [TypeError]. *)
Definition verify_call (this : MercuryoService) (payload : option jsstring)
    (signature : jsstring) : M bool :=
  match payload with
  | Some p =>
      call (CallHmac p) (Return (verifyWebhookSignature this p signature))
  | None => throw (TypeError "ERR_INVALID_ARG_TYPE")
  end.

(** [parseWebhook(body, signature)], lines 93-101. *)
Definition parseWebhook (this : MercuryoService) (body : JsValue)
    (signature : jsstring) : M JsValue :=
  payload <- payload_of body ;;
  ok <- verify_call this payload signature ;;
  if negb ok then throw (Error "Invalid webhook signature")
  else
    match body with
    | JsString s => call (CallParse s) (JSON_parse s)
    | _ => ret body
    end.

End Runtime.

(** What line 97 throws. *)
Definition rejected : Completion JsValue :=
  Throw (Error "Invalid webhook signature").

End Mercuryo.

(** Sample inputs for the payment client. *)
Module Samples.

Import Mercuryo.

Definition service : MercuryoService :=
  constructor
    {| cfg_apiKey := js "key";
       cfg_secret := js "secret";
       cfg_webhookSecret := js "whsec_test" |}.

(** A JSON string literal: the text between quotation marks (code 34). *)
Definition jq (s : string) : jsstring := [34] ++ js s ++ [34].

Definition settlement_text : jsstring :=
  js "{" ++ jq "id" ++ js ":" ++ jq "p1" ++ js ","
    ++ jq "status" ++ js ":" ++ jq "paid" ++ js ","
    ++ jq "amount" ++ js ":500,"
    ++ jq "currency" ++ js ":" ++ jq "EUR" ++ js "}".

Definition settlement : JsValue :=
  JsObject [(js "id", JsString (js "p1"));
            (js "status", JsString (js "paid"));
            (js "amount", JsNumber 500);
            (js "currency", JsString (js "EUR"))].

Definition settlement_signature : jsstring :=
  js "279c62402fb241e9f9756ac2c683f5ce02e63270d902c2956c8d869d4f81d854".

Definition surrogate_signature : jsstring :=
  js "186e64bafe5c18d0c72cdd3c10fed53973b84fbfcac4c411ed4623f9ac150d54".

End Samples.

(** * The panel client

    Modelled from the spec: the panel client (session, [authenticate],
    [request], the provisioning operations and [getVlessConfig]); its
    source file is not among the sources.  The remote panel is a script of
    responses, consumed one per HTTP call; every effect of the client (HTTP
    calls with what came back, backoff delays, operations invoked) is
    recorded in order. *)

Module Panel.

Local Open Scope string_scope.
Local Open Scope list_scope.
Local Open Scope Z_scope.
Local Infix "+++" := String.append (right associativity, at level 60).

Inductive AccountStatus : Type := active | disabled.

Record RemoteAccount : Type := {
  username : string;
  proxy_identity : option string;
  status : AccountStatus;
  data_quota : Z;
  consumed_traffic : Z;
  expire : option Z
}.

Inductive Payload : Type :=
| PToken (bearer : string)
| PAccount (a : RemoteAccount)
| PEmpty.

(** What one HTTP call comes back with. *)
Inductive Response : Type :=
| Ok (p : Payload)
| Status (code : Z)
| Timeout
| NetworkFailure.

Inductive Method : Type := GET | POST | PUT | DELETE.

Record Request : Type := {
  method : Method;
  path : string;
  data : option RemoteAccount
}.

Inductive Operation : Type :=
| OpGetUser (u : string)
| OpCreateUser (u : string) (quota : Z) (expiry : option Z).

Inductive HttpCall : Type :=
| TokenExchange
| Send (req : Request) (bearer : string)
| Replay (req : Request) (bearer : string).

Inductive Event : Type :=
| Http (c : HttpCall) (r : Response)
| Sleep (ms : Z)
| Reauthenticate
| Invoke (op : Operation).

Inductive PanelError : Type :=
| AuthenticationError (attempts : nat) (last : Response)
| AuthenticationRejected
| RemoteError (r : Response)
| NotFound (u : string)
| MalformedResponse
| NoProxyIdentity (u : string).

Definition is_authentication_error (e : PanelError) : bool :=
  match e with
  | AuthenticationError _ _ | AuthenticationRejected => true
  | _ => false
  end.

Inductive Result (A : Type) : Type :=
| Return (a : A)
| Throw (e : PanelError).
Arguments Return {A} a.
Arguments Throw {A} e.

Record Session : Type := { bearer : string; expiry : Z }.

Record World : Type := {
  script : list Response;
  session : option Session;
  clock : Z;
  next_id : N
}.

(** ** The monad of the client: state, events, errors *)

Definition M (A : Type) : Type := World -> list Event * World * Result A.

Definition emitted {A} (x : list Event * World * Result A) := fst (fst x).
Definition final {A} (x : list Event * World * Result A) := snd (fst x).
Definition result {A} (x : list Event * World * Result A) := snd x.

Definition ret {A} (a : A) : M A := fun w => ([], w, Return a).
Definition throw {A} (e : PanelError) : M A := fun w => ([], w, Throw e).
Definition bind {A B} (m : M A) (k : A -> M B) : M B :=
  fun w =>
    match m w with
    | (ev, w1, Return a) =>
        match k a w1 with (ev', w2, r) => (ev ++ ev', w2, r) end
    | (ev, w1, Throw e) => (ev, w1, Throw e)
    end.
Definition catch {A} (m : M A) (h : PanelError -> M A) : M A :=
  fun w =>
    match m w with
    | (ev, w1, Return a) => (ev, w1, Return a)
    | (ev, w1, Throw e) =>
        match h e w1 with (ev', w2, r) => (ev ++ ev', w2, r) end
    end.

Notation "x <- m ;; k" := (bind m (fun x => k))
  (at level 61, m at next level, right associativity).
Notation "m ;; k" := (bind m (fun _ => k))
  (at level 61, right associativity).

Definition emit (e : Event) : M unit := fun w => ([e], w, Return tt).

Definition with_script (w : World) (s : list Response) : World :=
  {| script := s; session := session w; clock := clock w;
     next_id := next_id w |}.
Definition with_session (w : World) (s : Session) : World :=
  {| script := script w; session := Some s; clock := clock w;
     next_id := next_id w |}.
Definition advance (w : World) (ms : Z) : World :=
  {| script := script w; session := session w; clock := clock w + ms;
     next_id := next_id w |}.

(** The next response of the script; a network failure when the script has
    run out. *)
Definition next_response (w : World) : Response * World :=
  match script w with
  | r :: rest => (r, with_script w rest)
  | [] => (NetworkFailure, w)
  end.

(** One HTTP call. *)
Definition http (c : HttpCall) : M Response :=
  fun w => let (r, w') := next_response w in ([Http c r], w', Return r).

Definition sleep (ms : Z) : M unit :=
  fun w => ([Sleep ms], advance w ms, Return tt).

Definition now : M Z := fun w => ([], w, Return (clock w)).
Definition set_session (s : Session) : M unit :=
  fun w => ([], with_session w s, Return tt).

Definition decimal (n : N) : string := NilEmpty.string_of_uint (N.to_uint n).

(** A proxy identity not handed out before. *)
Definition identity_of (w : World) : string := "id-" +++ decimal (next_id w).
Definition minted (w : World) : World :=
  {| script := script w; session := session w; clock := clock w;
     next_id := N.succ (next_id w) |}.
Definition fresh_identity : M string :=
  fun w => ([], minted w, Return (identity_of w)).

(** ** Authentication *)

Definition MAX_ATTEMPTS : nat := 3.
Definition RETRY_DELAY : Z := 1000.
Definition TOKEN_LIFETIME : Z := 23 * 60 * 60 * 1000.

(** Delay after the failed attempt number [attempt] (from 1). *)
Definition backoff (attempt : nat) : Z :=
  RETRY_DELAY * 2 ^ Z.of_nat (attempt - 1).

(** The bearer credential of a successful token exchange. *)
Definition token_of (r : Response) : option string :=
  match r with Ok (PToken t) => Some t | _ => None end.

(** Modelled from the spec: [authenticate] of the panel client (spec 4.1,
    Authentication).  Credentials go to the token exchange; on success the
    bearer credential is stored with expiry now + 23 hours; on failure it
    retries, up to 3 attempts in all, waiting 1000 ms, doubled each time,
    between attempts; after the last failed attempt it raises an
    authentication error with the attempt count and the last error.
    [left] attempts remain; the attempt made is number
    [MAX_ATTEMPTS - left + 1]. *)
Fixpoint authenticate_from (left : nat) : M unit :=
  match left with
  | O => throw (AuthenticationError MAX_ATTEMPTS NetworkFailure)
  | S left' =>
      r <- http TokenExchange ;;
      match token_of r with
      | Some t =>
          t0 <- now ;;
          set_session {| bearer := t; expiry := t0 + TOKEN_LIFETIME |}
      | None =>
          match left' with
          | O => throw (AuthenticationError MAX_ATTEMPTS r)
          | S _ => sleep (backoff (MAX_ATTEMPTS - left')) ;; authenticate_from left'
          end
      end
  end.

Definition authenticate : M unit := authenticate_from MAX_ATTEMPTS.

(** ** Request execution *)

Definition unauthorized (r : Response) : bool :=
  match r with Status c => c =? 401 | _ => false end.

Definition retryable (r : Response) : bool :=
  match r with
  | Status c => (500 <=? c) && (c <=? 599)
  | Timeout => true
  | _ => false
  end.

Definition success (r : Response) : option Payload :=
  match r with Ok p => Some p | _ => None end.

Definition session_live (w : World) : bool :=
  match session w with
  | Some s => clock w <? expiry s
  | None => false
  end.

(** Modelled from the spec: step 1 of [request] (spec 4.1, Request
    execution): no credential, or its expiry has passed: authenticate. *)
Definition ensure_session : M unit :=
  fun w => if session_live w then ([], w, Return tt) else authenticate w.

Definition bearer_of (w : World) : string :=
  match session w with Some s => bearer s | None => "" end.

Definition current_bearer : M string := fun w => ([], w, Return (bearer_of w)).

(** Modelled from the spec: step 3 of [request] (spec 4.1 and 8): on an
    unauthorized response, re-authenticate once and replay the same request
    with the refreshed credential; unauthorized again is an authentication
    error.  [reauthed] tells whether this request has used its one
    re-authentication (spec 9: at most one retry on this path). *)
Definition settle_unauthorized (req : Request) (reauthed : bool)
    (r : Response) : M (Response * bool) :=
  if unauthorized r then
    if reauthed then throw AuthenticationRejected
    else
      emit Reauthenticate ;;
      authenticate ;;
      t <- current_bearer ;;
      r' <- http (Replay req t) ;;
      if unauthorized r' then throw AuthenticationRejected
      else ret (r', true)
  else ret (r, reauthed).

(** Modelled from the spec: [request(method, path, body)] of the panel
    client (spec 4.1, steps 1 to 4, and 7(d), 7(e)).  A retryable failure
    (5xx or timeout) is retried, up to 3 attempts in all, with the backoff
    of [authenticate]; any other failure, and a retryable one on the last
    attempt, is raised.  [left] attempts remain. *)
Fixpoint request_from (left : nat) (reauthed : bool) (req : Request)
    : M Payload :=
  match left with
  | O => throw (RemoteError NetworkFailure)
  | S left' =>
      ensure_session ;;
      t <- current_bearer ;;
      r <- http (Send req t) ;;
      rr <- settle_unauthorized req reauthed r ;;
      match success (fst rr) with
      | Some p => ret p
      | None =>
          if retryable (fst rr) then
            match left' with
            | O => throw (RemoteError (fst rr))
            | S _ =>
                sleep (backoff (MAX_ATTEMPTS - left')) ;;
                request_from left' (snd rr) req
            end
          else throw (RemoteError (fst rr))
      end
  end.

Definition request (req : Request) : M Payload :=
  request_from MAX_ATTEMPTS false req.

(** ** Provisioning operations *)

Definition user_path (u : string) : string := "/api/user/" +++ u.

Definition expect_account (p : Payload) : M RemoteAccount :=
  match p with
  | PAccount a => ret a
  | _ => throw MalformedResponse
  end.

(** A 404 becomes the not-found error; every other failure stays as it is. *)
Definition not_found_of (u : string) (e : PanelError) : PanelError :=
  match e with
  | RemoteError (Status c) => if c =? 404 then NotFound u else e
  | _ => e
  end.

Definition get_request (u : string) : Request :=
  {| method := GET; path := user_path u; data := None |}.

Definition create_request (u id : string) (quota : Z) (expiry : option Z)
    : Request :=
  {| method := POST; path := "/api/user";
     data := Some {| username := u; proxy_identity := Some id;
                     status := active; data_quota := quota;
                     consumed_traffic := 0; expire := expiry |} |}.

(** Modelled from the spec: [getUser(username)] (spec 4.1, table). *)
Definition getUser (u : string) : M RemoteAccount :=
  emit (Invoke (OpGetUser u)) ;;
  p <- catch (request (get_request u)) (fun e => throw (not_found_of u e)) ;;
  expect_account p.

(** Modelled from the spec: [createUser(username, quota, expiry?)] (spec
    4.1, table): a fresh proxy identity is generated and the creation is
    submitted. *)
Definition createUser (u : string) (quota : Z) (expiry : option Z)
    : M RemoteAccount :=
  emit (Invoke (OpCreateUser u quota expiry)) ;;
  id <- fresh_identity ;;
  p <- request (create_request u id quota expiry) ;;
  expect_account p.

(** Modelled from the spec: [userExists(username)] (spec 4.1, table):
    whether the fetch succeeds; any fetch failure is "does not exist". *)
Definition userExists (u : string) : M bool :=
  catch (getUser u ;; ret true) (fun _ => ret false).

(** Modelled from the spec: [getOrCreateUser(username, quota, expiry?)]
    (spec 4.1, table): fetch; on any failure, create. *)
Definition getOrCreateUser (u : string) (quota : Z) (expiry : option Z)
    : M RemoteAccount :=
  catch (getUser u) (fun _ => createUser u quota expiry).

(** ** Connection descriptor *)

(** Modelled from the spec: the connection descriptor format (spec 6 and
    8), with the flow mode of the example of spec 8. *)
Definition vless_uri (id host : string) (port : N) (u : string) : string :=
  "vless://" +++ id +++ "@" +++ host +++ ":" +++ decimal port
    +++ "?encryption=none&flow=xtls-rprx-vision&security=tls&sni=" +++ host
    +++ "&type=tcp&headerType=none#" +++ u.

(** Modelled from the spec: [getVlessConfig(username, host, port)] (spec
    4.1, Connection descriptor derivation). *)
Definition getVlessConfig (u host : string) (port : N) : M string :=
  a <- getUser u ;;
  match proxy_identity a with
  | Some id => ret (vless_uri id host port u)
  | None => throw (NoProxyIdentity u)
  end.

(** ** Reading a run *)

Definition is_reauth (e : Event) : bool :=
  match e with Reauthenticate => true | _ => false end.
Definition is_replay (e : Event) : bool :=
  match e with Http (Replay _ _) _ => true | _ => false end.
Definition is_send (e : Event) : bool :=
  match e with Http (Send _ _) _ => true | _ => false end.
Definition is_token_exchange (e : Event) : bool :=
  match e with Http TokenExchange _ => true | _ => false end.
Definition is_get_user (e : Event) : bool :=
  match e with Invoke (OpGetUser _) => true | _ => false end.
Definition is_create_user (e : Event) : bool :=
  match e with Invoke (OpCreateUser _ _ _) => true | _ => false end.

Definition count (f : Event -> bool) (ev : list Event) : nat :=
  length (filter f ev).

Definition delays (ev : list Event) : list Z :=
  flat_map (fun e => match e with Sleep ms => [ms] | _ => [] end) ev.

(** A send or a replay came back unauthorized. *)
Definition got_unauthorized (e : Event) : bool :=
  match e with
  | Http (Send _ _) r | Http (Replay _ _) r => unauthorized r
  | _ => false
  end.

(** What [authenticate] alone emits. *)
Definition auth_event (e : Event) : bool :=
  match e with Http TokenExchange _ | Sleep _ => true | _ => false end.
Definition is_invoke (e : Event) : bool :=
  match e with Invoke _ => true | _ => false end.
Definition unauthorized_replay (e : Event) : bool :=
  match e with Http (Replay _ _) r => unauthorized r | _ => false end.

(** What every run of [request_from] satisfies; [reauthed] is the flag the
    run starts with. *)
Definition run_ok (left : nat) (reauthed : bool)
    (x : list Event * World * Result Payload) : Prop :=
  let ev := emitted x in
  let res := result x in
  (count is_send ev <= left)%nat
  /\ (count is_reauth ev + (if reauthed then 1 else 0) <= 1)%nat
  /\ (count is_replay ev <= count is_reauth ev)%nat
  /\ (existsb got_unauthorized ev = true ->
      if reauthed then res = Throw AuthenticationRejected
      else count is_reauth ev = 1%nat)
  /\ ((count is_replay ev < count is_reauth ev)%nat ->
      exists last, res = Throw (AuthenticationError MAX_ATTEMPTS last))
  /\ (existsb unauthorized_replay ev = true ->
      res = Throw AuthenticationRejected
      /\ exists ev1 e, ev = ev1 ++ [e] /\ unauthorized_replay e = true)
  /\ count is_invoke ev = 0%nat.

End Panel.

(** * Lazy construction of the panel client

    Modelled from the spec: the accessor of the process-wide panel client,
    whose source file is not among the sources.  Handlers run interleaved on
    one event loop: a first use either finds the client, joins the handshake
    in flight, or starts one; the handshake settles later, after any number
    of further first uses. *)

Module Singleton.

Definition Caller := nat.

Record Registry : Type := {
  instance : option Panel.World;
  pending : option (list Caller);
  handshakes : nat;
  wire : list Panel.Event;
  delivered : list (Caller * Panel.World);
  refused : list (Caller * Panel.PanelError)
}.

Definition empty : Registry :=
  {| instance := None; pending := None; handshakes := 0; wire := [];
     delivered := []; refused := [] |}.

Inductive Step : Type :=
| FirstUse (c : Caller)
| Settle (env : Panel.World).

(** The client under construction: no session yet, the panel as [env] has it. *)
Definition fresh (env : Panel.World) : Panel.World :=
  {| Panel.script := Panel.script env; Panel.session := None;
     Panel.clock := Panel.clock env; Panel.next_id := Panel.next_id env |}.

(** Modelled from the spec: a first use of the accessor (spec 4.1,
    Construction; spec 5): the client when there is one, else the handshake
    in flight, else a new handshake. *)
Definition first_use (c : Caller) (r : Registry) : Registry :=
  match instance r with
  | Some k =>
      {| instance := instance r; pending := pending r;
         handshakes := handshakes r; wire := wire r;
         delivered := delivered r ++ [(c, k)]; refused := refused r |}
  | None =>
      match pending r with
      | Some waiting =>
          {| instance := None; pending := Some (waiting ++ [c]);
             handshakes := handshakes r; wire := wire r;
             delivered := delivered r; refused := refused r |}
      | None =>
          {| instance := None; pending := Some [c];
             handshakes := S (handshakes r); wire := wire r;
             delivered := delivered r; refused := refused r |}
      end
  end.

(** Modelled from the spec: the handshake in flight runs [authenticate]
    on the client under construction and settles; everyone waiting receives
    its outcome. *)
Definition settle (env : Panel.World) (r : Registry) : Registry :=
  match pending r with
  | None => r
  | Some waiting =>
      match Panel.authenticate (fresh env) with
      | (ev, k, Panel.Return _) =>
          {| instance := Some k; pending := None;
             handshakes := handshakes r; wire := wire r ++ ev;
             delivered := delivered r ++ map (fun c => (c, k)) waiting;
             refused := refused r |}
      | (ev, _, Panel.Throw e) =>
          {| instance := None; pending := None;
             handshakes := handshakes r; wire := wire r ++ ev;
             delivered := delivered r;
             refused := refused r ++ map (fun c => (c, e)) waiting |}
      end
  end.

Definition step (r : Registry) (s : Step) : Registry :=
  match s with
  | FirstUse c => first_use c r
  | Settle env => settle env r
  end.

Definition run (steps : list Step) (r : Registry) : Registry :=
  fold_left step steps r.

Definition settles (steps : list Step) : nat :=
  length (filter (fun s => match s with Settle _ => true | _ => false end) steps).

(** 0 while a handshake is in flight, 1 otherwise. *)
Definition slack (r : Registry) : nat :=
  match pending r with Some _ => 0 | None => 1 end.

End Singleton.

(** Sample inputs for the panel client. *)
Module PanelSamples.

Import Panel.
Local Open Scope string_scope.

Definition signed_in (responses : list Response) : World :=
  {| script := responses;
     session := Some {| bearer := "t0"; expiry := 100000 |};
     clock := 0; next_id := 0 |}.

Definition list_users : Request :=
  {| method := GET; path := "/api/users"; data := None |}.

Definition alice : RemoteAccount :=
  {| username := "alice"; proxy_identity := Some "abc-123"; status := active;
     data_quota := 1000; consumed_traffic := 0; expire := None |}.

End PanelSamples.

(** * The payment client: outbound calls and the module singleton

    [createPayment], [getPaymentStatus] and [getMercuryoService] of
    [src/services/mercuryo.ts].  The network behind the axios instance is a
    function from the request made to what axios settles with; the requests
    a call makes are recorded in order. *)

Module MercuryoApi.

Import Mercuryo.

(** The instance [axios.create] builds in the constructor, lines 48-54. *)
Record AxiosInstance : Type := {
  baseURL : jsstring;
  headers : list (jsstring * jsstring)
}.

Definition client (this : MercuryoService) : AxiosInstance :=
  {| baseURL := baseUrl this;
     headers := [(js "Authorization", js "Bearer " ++ apiKey this);
                 (js "Content-Type", js "application/json")] |}.

Inductive Verb : Type := GET | POST.

Record HttpRequest : Type := {
  via : AxiosInstance;
  verb : Verb;
  url : jsstring;
  data : option JsValue
}.

(** What an axios call settles with: a response, of which the code reads
    [data], or a rejection, of which it reads [message]. *)
Inductive AxiosOutcome : Type :=
| Response (data : JsValue)
| Failure (message : jsstring).

(** How an [async] method settles; a rejection is [new Error(message)]. *)
Inductive Settled (A : Type) : Type :=
| Fulfilled (a : A)
| Rejected (message : jsstring).
Arguments Fulfilled {A} a.
Arguments Rejected {A} message.

Record CreatePaymentParams : Type := {
  amount : Z;
  currency : jsstring;
  userId : jsstring;
  plan : jsstring;
  returnUrl : jsstring
}.

(** The object literal of lines 62-70. *)
Definition payment_body (params : CreatePaymentParams) : JsValue :=
  JsObject
    [(js "amount", JsNumber (amount params));
     (js "currency", JsString (currency params));
     (js "return_url", JsString (returnUrl params));
     (js "metadata",
      JsObject [(js "userId", JsString (userId params));
                (js "plan", JsString (plan params))])].

Definition create_failed : jsstring := js "Failed to create Mercuryo payment: ".
Definition status_failed : jsstring := js "Failed to get payment status: ".

Section Network.

Variable adapter : HttpRequest -> AxiosOutcome.

(** [createPayment(params)], lines 60-76. *)
Definition createPayment (this : MercuryoService)
    (params : CreatePaymentParams) : list HttpRequest * Settled JsValue :=
  let req := {| via := client this; verb := POST; url := js "/v1.6/payment";
                data := Some (payment_body params) |} in
  match adapter req with
  | Response d => ([req], Fulfilled d)
  | Failure m => ([req], Rejected (create_failed ++ m))
  end.

(** [getPaymentStatus(paymentId)], lines 106-113. *)
Definition getPaymentStatus (this : MercuryoService)
    (paymentId : jsstring) : list HttpRequest * Settled JsValue :=
  let req := {| via := client this; verb := GET;
                url := js "/v1.6/payment/" ++ paymentId; data := None |} in
  match adapter req with
  | Response d => ([req], Fulfilled d)
  | Failure m => ([req], Rejected (status_failed ++ m))
  end.

End Network.

(** [process.env], as far as [getMercuryoService] reads it: a variable is a
    string or [undefined]. *)
Record ProcessEnv : Type := {
  MERCURYO_API_KEY : option jsstring;
  MERCURYO_SECRET : option jsstring;
  MERCURYO_WEBHOOK_SECRET : option jsstring
}.

(** [!v] for a string or [undefined]: true for [undefined] and for the
    empty string. *)
Definition falsy (v : option jsstring) : bool :=
  match v with
  | None | Some [] => true
  | Some (_ :: _) => false
  end.

Definition value (v : option jsstring) : jsstring :=
  match v with Some s => s | None => [] end.

Definition missing (env : ProcessEnv) : bool :=
  falsy (MERCURYO_API_KEY env) || falsy (MERCURYO_SECRET env)
  || falsy (MERCURYO_WEBHOOK_SECRET env).

(** The instance lines 125-129 construct. *)
Definition service_of (env : ProcessEnv) : MercuryoService :=
  constructor
    {| cfg_apiKey := value (MERCURYO_API_KEY env);
       cfg_secret := value (MERCURYO_SECRET env);
       cfg_webhookSecret := value (MERCURYO_WEBHOOK_SECRET env) |}.

(** [getMercuryoService()], lines 117-133; the module variable
    [mercuryoService] is passed in and handed back. *)
Definition getMercuryoService (env : ProcessEnv)
    (mercuryoService : option MercuryoService)
    : option MercuryoService * Completion MercuryoService :=
  match mercuryoService with
  | Some service => (Some service, Return service)
  | None =>
      if missing env then
        (None, Throw (Error "Mercuryo configuration is missing"))
      else (Some (service_of env), Return (service_of env))
  end.

(** Calls made one after another, each under the environment of its time. *)
Fixpoint calls (envs : list ProcessEnv) (mercuryoService : option MercuryoService)
    : list (Completion MercuryoService) :=
  match envs with
  | [] => []
  | env :: rest =>
      let (next, r) := getMercuryoService env mercuryoService in
      r :: calls rest next
  end.

(** A code unit of [digest('hex')]: a digit or a letter from a to f. *)
Definition lower_hex (c : Z) : bool :=
  ((48 <=? c) && (c <=? 57)) || ((97 <=? c) && (c <=? 102)).

Definition octet (b : Z) : Prop := 0 <= b < 256.

(** What line 122 throws. *)
Definition config_error : Completion MercuryoService :=
  Throw (Error "Mercuryo configuration is missing").

(** The sample signature of [Samples], in uppercase hex. *)
Definition upper_signature : jsstring :=
  js "279C62402FB241E9F9756AC2C683F5CE02E63270D902C2956C8D869D4F81D854".

End MercuryoApi.

(** * Strings without unpaired surrogates

    [paired s]: every high surrogate of [s] is followed by a low one and
    every low surrogate follows a high one.  [utf16_of_utf8] reads the bytes
    [Crypto.utf8] writes for such a string back into code units. *)

Fixpoint paired (s : jsstring) : bool :=
  match s with
  | [] => true
  | c :: r =>
      if Crypto.is_high_surrogate c then
        match r with
        | d :: r' => Crypto.is_low_surrogate d && paired r'
        | [] => false
        end
      else negb (Crypto.is_low_surrogate c) && paired r
  end.

Fixpoint utf16_of_utf8 (b : list Z) : jsstring :=
  match b with
  | [] => []
  | b0 :: r =>
      if b0 <? 0x80 then b0 :: utf16_of_utf8 r
      else if b0 <? 0xE0 then
        match r with
        | b1 :: r' => (b0 - 0xC0) * 64 + (b1 - 0x80) :: utf16_of_utf8 r'
        | _ => []
        end
      else if b0 <? 0xF0 then
        match r with
        | b1 :: b2 :: r' =>
            (b0 - 0xE0) * 4096 + (b1 - 0x80) * 64 + (b2 - 0x80)
              :: utf16_of_utf8 r'
        | _ => []
        end
      else
        match r with
        | b1 :: b2 :: b3 :: r' =>
            let cp := (b0 - 0xF0) * 262144 + (b1 - 0x80) * 4096
                      + (b2 - 0x80) * 64 + (b3 - 0x80) in
            0xD800 + (cp - 0x10000) / 1024
              :: 0xDC00 + (cp - 0x10000) mod 1024 :: utf16_of_utf8 r'
        | _ => []
        end
  end.

(** * Properties *)

(** ** The runtime model against published vectors *)

Example utf8_ranges :
  Crypto.utf8 [0x41; 0xE9; 0x20AC; 0xD83D; 0xDE00]
  = [65; 195; 169; 226; 130; 172; 240; 159; 152; 128].
Proof. reflexivity. Qed.

Example utf8_unpaired_surrogates :
  Crypto.utf8 [0xD800] = [0xEF; 0xBF; 0xBD]
  /\ Crypto.utf8 [0xDC00; 0x41] = [0xEF; 0xBF; 0xBD; 0x41]
  /\ Crypto.utf8 [0xFFFD] = [0xEF; 0xBF; 0xBD].
Proof. repeat split. Qed.

Example sha256_abc :
  Crypto.hex (Crypto.sha256 (Crypto.utf8 (js "abc")))
  = js "ba7816bf8f01cfea414140de5dae2223b00361a396177a9cb410ff61f20015ad".
Proof. vm_compute. reflexivity. Qed.

Example hmac_fox :
  Crypto.createHmac_sha256_hex (js "key")
    (js "The quick brown fox jumps over the lazy dog")
  = js "f7bc83f430538424b13298e6aa6fb143ef4d59a14946175997479dbc2d1a3cd8".
Proof. vm_compute. reflexivity. Qed.

Example hmac_rfc4231_long_key :
  Crypto.hex
    (Crypto.hmac_sha256 (repeat 0xAA 131)
       (Crypto.utf8 (js "Test Using Larger Than Block-Size Key - Hash Key First")))
  = js "60e431591ee0b67f0d8a26aacbf5b77f8e0bc6213728c5140546040f0ee37f54".
Proof. vm_compute. reflexivity. Qed.

(** ** Strings *)

Lemma strict_eq_true (a b : jsstring) : strict_eq a b = true <-> a = b.
Proof.
  revert b; induction a as [|x a IH]; intros [|y b]; simpl;
    try (split; [discriminate | discriminate]); try tauto.
  rewrite andb_true_iff, Z.eqb_eq, IH.
  split; [intros [-> ->]; reflexivity | intros E; injection E; auto].
Qed.

Lemma strict_eq_false (a b : jsstring) : strict_eq a b = false <-> a <> b.
Proof.
  rewrite <- strict_eq_true. destruct (strict_eq a b); split; congruence.
Qed.

Lemma one_bit_apart_neq (a b : jsstring) : one_bit_apart a b -> a <> b.
Proof.
  revert b; induction a as [|x a IH]; intros [|y b]; simpl; try tauto.
  intros [[(k & Hk & ->) _] | [_ H]] E; injection E as E1 E2.
  - assert (B : Z.testbit (Z.lxor x (Z.shiftl 1 k)) k = Z.testbit x k)
      by (rewrite <- E1; reflexivity).
    rewrite Z.lxor_spec, Z.shiftl_spec, Z.sub_diag in B by lia.
    simpl in B. destruct (Z.testbit x k); discriminate.
  - exact (IH _ H E2).
Qed.

(** ** [verifyWebhookSignature] *)

Section VerifyWebhookSignature.

Import Mercuryo.
Variable this : MercuryoService.

Lemma verify_iff (payload signature : jsstring) :
  verifyWebhookSignature this payload signature = true
  <-> signature = calculatedSignature this payload.
Proof.
  unfold verifyWebhookSignature. rewrite strict_eq_true. split; congruence.
Qed.

Lemma verify_rejects_iff (payload signature : jsstring) :
  verifyWebhookSignature this payload signature = false
  <-> signature <> calculatedSignature this payload.
Proof.
  rewrite <- verify_iff.
  destruct (verifyWebhookSignature this payload signature); split; congruence.
Qed.

Lemma calculatedSignature_utf8 (p q : jsstring) :
  Crypto.utf8 p = Crypto.utf8 q ->
  calculatedSignature this p = calculatedSignature this q.
Proof.
  unfold calculatedSignature, Crypto.createHmac_sha256_hex. intros ->. reflexivity.
Qed.

End VerifyWebhookSignature.




(** ** [parseWebhook] *)

Section ParseWebhook.

Import Mercuryo.
Variable JSON_stringify : JsValue -> Completion (option jsstring).
Variable JSON_parse : jsstring -> Completion JsValue.
Variable this : MercuryoService.

Local Abbreviation parseWebhook :=
  (Mercuryo.parseWebhook JSON_stringify JSON_parse this).
Local Abbreviation payload_of := (Mercuryo.payload_of JSON_stringify).

Lemma parseWebhook_string (s signature : jsstring) :
  parseWebhook (JsString s) signature
  = if verifyWebhookSignature this s signature
    then ([CallHmac s; CallParse s], JSON_parse s)
    else ([CallHmac s], rejected).
Proof.
  unfold Mercuryo.parseWebhook; simpl.
  destruct (verifyWebhookSignature this s signature); simpl.
  - destruct (JSON_parse s); reflexivity.
  - reflexivity.
Qed.

Lemma parseWebhook_other (body : JsValue) (signature : jsstring) :
  typeof_string body = false ->
  parseWebhook body signature
  = match JSON_stringify body with
    | Return (Some p) =>
        ([CallStringify body; CallHmac p],
         if verifyWebhookSignature this p signature then Return body else rejected)
    | Return None =>
        ([CallStringify body], Throw (TypeError "ERR_INVALID_ARG_TYPE"))
    | Throw e => ([CallStringify body], Throw e)
    end.
Proof.
  intros T. unfold Mercuryo.parseWebhook.
  destruct body; try discriminate T; simpl;
    (destruct (JSON_stringify _) as [[p|]|e]; simpl; try reflexivity;
     destruct (verifyWebhookSignature this p signature); reflexivity).
Qed.

Lemma payload_of_string (body : JsValue) (p : jsstring) :
  typeof_string body = true ->
  outcome (payload_of body) = Return (Some p) -> body = JsString p.
Proof.
  destruct body; try discriminate. simpl. congruence.
Qed.

Lemma payload_of_other (body : JsValue) (p : jsstring) :
  typeof_string body = false ->
  outcome (payload_of body) = Return (Some p) ->
  JSON_stringify body = Return (Some p).
Proof.
  destruct body; try discriminate; simpl; auto.
Qed.

Lemma parse_only_after_verification (body : JsValue) (signature s : jsstring) :
  In (CallParse s) (trace (parseWebhook body signature)) ->
  body = JsString s /\ verifyWebhookSignature this s signature = true.
Proof.
  destruct (typeof_string body) eqn:T.
  - destruct body; try discriminate T. rewrite parseWebhook_string.
    destruct (verifyWebhookSignature this s0 signature) eqn:V; simpl.
    + intros [E | [E | []]]; [discriminate E|]. injection E as <-. auto.
    + intros [E | []]; discriminate E.
  - rewrite (parseWebhook_other _ _ T).
    destruct (JSON_stringify body) as [[p|]|e]; simpl;
      intuition discriminate.
Qed.

Lemma returns_only_verified (body : JsValue) (signature : jsstring) (v : JsValue) :
  outcome (parseWebhook body signature) = Return v ->
  exists p, outcome (payload_of body) = Return (Some p)
            /\ verifyWebhookSignature this p signature = true.
Proof.
  destruct (typeof_string body) eqn:T.
  - destruct body; try discriminate T. rewrite parseWebhook_string.
    destruct (verifyWebhookSignature this s signature) eqn:V; simpl.
    + intros _. exists s. split; [reflexivity | exact V].
    + discriminate.
  - rewrite (parseWebhook_other _ _ T).
    assert (P : outcome (payload_of body) = JSON_stringify body)
      by (destruct body; try discriminate T; reflexivity).
    rewrite P. destruct (JSON_stringify body) as [[p|]|e]; simpl;
      try discriminate.
    destruct (verifyWebhookSignature this p signature) eqn:V;
      [|discriminate].
    intros _. exists p. split; [reflexivity | exact V].
Qed.

End ParseWebhook.

(** C2.  [parseWebhook] verifies the signature before anything else is done
    with the body and fails closed: for every body, a value is returned only
    when the signature has verified for the payload; whenever it does not
    verify, the outcome is the error [Invalid webhook signature] and
    [JSON.parse] is never called, whatever the body; when it verifies, the
    outcome is what decoding the body yields, passed through unchanged (the
    body itself when it already is a decoded value). *)
Theorem parseWebhook_fails_closed
    (JSON_stringify : Mercuryo.JsValue -> Mercuryo.Completion (option jsstring))
    (JSON_parse : jsstring -> Mercuryo.Completion Mercuryo.JsValue)
    (this : Mercuryo.MercuryoService)
    (body : Mercuryo.JsValue) (signature : jsstring) :
  let run := Mercuryo.parseWebhook JSON_stringify JSON_parse this body signature in
  let payload := Mercuryo.outcome (Mercuryo.payload_of JSON_stringify body) in
  (forall v,
      Mercuryo.outcome run = Mercuryo.Return v ->
      exists p, payload = Mercuryo.Return (Some p)
                /\ Mercuryo.verifyWebhookSignature this p signature = true)
  /\ (forall p,
      payload = Mercuryo.Return (Some p) ->
      Mercuryo.verifyWebhookSignature this p signature = false ->
      Mercuryo.outcome run
      = Mercuryo.Throw (Mercuryo.Error "Invalid webhook signature")
      /\ forall s, ~ In (Mercuryo.CallParse s) (Mercuryo.trace run))
  /\ (forall p,
      payload = Mercuryo.Return (Some p) ->
      Mercuryo.verifyWebhookSignature this p signature = true ->
      Mercuryo.outcome run
      = match body with
        | Mercuryo.JsString s => JSON_parse s
        | _ => Mercuryo.Return body
        end).
Proof.
  cbv zeta. split; [apply returns_only_verified|].
  destruct (Mercuryo.typeof_string body) eqn:T.
  - split; intros p P V;
      apply (payload_of_string JSON_stringify _ _ T) in P; subst body;
      rewrite parseWebhook_string, V; simpl.
    + split; [reflexivity | intros s [E | []]; discriminate E].
    + reflexivity.
  - split; intros p P V;
      apply (payload_of_other JSON_stringify _ _ T) in P;
      rewrite (parseWebhook_other _ _ _ _ _ T), P, V; simpl.
    + split; [reflexivity | intros s [E | [E | []]]; discriminate E].
    + destruct body; try discriminate T; reflexivity.
Qed.

Lemma parseWebhook_fails_closed_witness :
  let stringify := fun _ : Mercuryo.JsValue =>
    Mercuryo.Return (Some Samples.settlement_text) in
  let parse := fun _ : jsstring => Mercuryo.Return Samples.settlement in
  let body := Mercuryo.JsString Samples.settlement_text in
  Mercuryo.outcome
    (Mercuryo.parseWebhook stringify parse Samples.service body
       Samples.surrogate_signature)
  = Mercuryo.Throw (Mercuryo.Error "Invalid webhook signature")
  /\ Mercuryo.outcome
       (Mercuryo.parseWebhook stringify parse Samples.service body
          Samples.settlement_signature)
     = Mercuryo.Return Samples.settlement.
Proof.
  intros stringify parse body. split.
  - apply (proj1 (proj2 (parseWebhook_fails_closed stringify parse
                           Samples.service body Samples.surrogate_signature))
             Samples.settlement_text eq_refl).
    vm_compute. reflexivity.
  - apply (proj2 (proj2 (parseWebhook_fails_closed stringify parse
                           Samples.service body Samples.settlement_signature))
             Samples.settlement_text eq_refl).
    vm_compute. reflexivity.
Defined.

(** C10.  [parseWebhook] accepts a body that is already a decoded value:
    the signature is then verified over [JSON.stringify(body)] and, when it
    verifies, that same value is returned unchanged, with no call of
    [JSON.parse]; a string body is verified as it is and parsed afterwards;
    [JSON.parse] is called on nothing but a string body whose signature has
    verified. *)
Theorem parseWebhook_decoded_body
    (JSON_stringify : Mercuryo.JsValue -> Mercuryo.Completion (option jsstring))
    (JSON_parse : jsstring -> Mercuryo.Completion Mercuryo.JsValue)
    (this : Mercuryo.MercuryoService)
    (body : Mercuryo.JsValue) (signature : jsstring) :
  (forall p,
      Mercuryo.typeof_string body = false ->
      JSON_stringify body = Mercuryo.Return (Some p) ->
      Mercuryo.parseWebhook JSON_stringify JSON_parse this body signature
      = ([Mercuryo.CallStringify body; Mercuryo.CallHmac p],
         if Mercuryo.verifyWebhookSignature this p signature
         then Mercuryo.Return body else Mercuryo.rejected))
  /\ (forall s,
      body = Mercuryo.JsString s ->
      Mercuryo.parseWebhook JSON_stringify JSON_parse this body signature
      = if Mercuryo.verifyWebhookSignature this s signature
        then ([Mercuryo.CallHmac s; Mercuryo.CallParse s], JSON_parse s)
        else ([Mercuryo.CallHmac s], Mercuryo.rejected))
  /\ (forall s,
      In (Mercuryo.CallParse s)
         (Mercuryo.trace
            (Mercuryo.parseWebhook JSON_stringify JSON_parse this body signature)) ->
      body = Mercuryo.JsString s
      /\ Mercuryo.verifyWebhookSignature this s signature = true).
Proof.
  split; [|split].
  - intros p T S. rewrite (parseWebhook_other _ _ _ _ _ T), S. reflexivity.
  - intros s ->. apply parseWebhook_string.
  - intros s. apply parse_only_after_verification.
Qed.

Lemma parseWebhook_decoded_body_witness :
  let stringify := fun _ : Mercuryo.JsValue =>
    Mercuryo.Return (Some Samples.settlement_text) in
  let parse := fun _ : jsstring =>
    Mercuryo.Throw (A := Mercuryo.JsValue) (Mercuryo.SyntaxError "unused") in
  Mercuryo.parseWebhook stringify parse Samples.service Samples.settlement
    Samples.settlement_signature
  = ([Mercuryo.CallStringify Samples.settlement;
      Mercuryo.CallHmac Samples.settlement_text],
     Mercuryo.Return Samples.settlement).
Proof.
  intros stringify parse.
  rewrite (proj1 (parseWebhook_decoded_body stringify parse Samples.service
                    Samples.settlement Samples.settlement_signature)
             Samples.settlement_text eq_refl eq_refl).
  vm_compute. reflexivity.
Defined.

(** ** Runs of the panel client *)

Create Rewrite HintDb tally.

Section PanelRuns.

Import Panel.

Lemma count_app f (a b : list Event) :
  count f (a ++ b) = (count f a + count f b)%nat.
Proof. unfold count. rewrite filter_app, length_app. reflexivity. Qed.

Lemma count_cons f e (l : list Event) :
  count f (e :: l) = ((if f e then 1 else 0) + count f l)%nat.
Proof. unfold count. simpl. destruct (f e); reflexivity. Qed.

Lemma count_nil f : count f [] = 0%nat.
Proof. reflexivity. Qed.

Lemma existsb_cons (g : Event -> bool) e l :
  existsb g (e :: l) = g e || existsb g l.
Proof. reflexivity. Qed.

#[local] Hint Rewrite count_app count_cons count_nil existsb_cons : tally.
#[local] Hint Rewrite (@existsb_app Event) : tally.
Ltac tally := autorewrite with tally; simpl.

Lemma count_quiet f (ev : list Event) :
  (forall e, auth_event e = true -> f e = false) ->
  forallb auth_event ev = true -> count f ev = 0%nat.
Proof.
  intros Q. induction ev as [|e ev IH]; simpl; [reflexivity|].
  rewrite andb_true_iff. intros [A B]. rewrite count_cons, (Q e A), (IH B).
  reflexivity.
Qed.

Lemma authenticate_from_S left w :
  authenticate_from (S left) w
  = let (r, w1) := next_response w in
    match token_of r with
    | Some t =>
        ([Http TokenExchange r],
         with_session w1 {| bearer := t; expiry := clock w1 + TOKEN_LIFETIME |},
         Return tt)
    | None =>
        match left with
        | O => ([Http TokenExchange r], w1,
                Throw (AuthenticationError MAX_ATTEMPTS r))
        | S _ =>
            match authenticate_from left
                    (advance w1 (backoff (MAX_ATTEMPTS - left))) with
            | (ev, w2, res) =>
                (Http TokenExchange r :: Sleep (backoff (MAX_ATTEMPTS - left)) :: ev,
                 w2, res)
            end
        end
    end.
Proof.
  cbn [authenticate_from]. unfold bind at 1, http.
  destruct (next_response w) as [r w1].
  destruct (token_of r) as [t|]; [reflexivity|].
  destruct left as [|left]; [reflexivity|].
  unfold bind, sleep.
  destruct (authenticate_from (S left) _) as [[ev w2] res]. reflexivity.
Qed.

Lemma authenticate_from_events left w :
  forallb auth_event (emitted (authenticate_from left w)) = true.
Proof.
  revert w; induction left as [|left IH]; intros w; [reflexivity|].
  rewrite authenticate_from_S.
  destruct (next_response w) as [r w1].
  destruct (token_of r) as [t|]; [reflexivity|].
  destruct left as [|left]; [reflexivity|].
  specialize (IH (advance w1 (backoff (MAX_ATTEMPTS - S left)))).
  destruct (authenticate_from (S left) _) as [[ev w2] res]. exact IH.
Qed.

Lemma next_response_session w : session (snd (next_response w)) = session w.
Proof. unfold next_response. destruct (script w); reflexivity. Qed.

Lemma next_response_clock w : clock (snd (next_response w)) = clock w.
Proof. unfold next_response. destruct (script w); reflexivity. Qed.

(** A failed [authenticate] leaves the session as it was and reports the
    attempt count; a successful one leaves a live session. *)
Lemma authenticate_from_result left w :
  match result (authenticate_from left w) with
  | Return _ => session_live (final (authenticate_from left w)) = true
  | Throw e =>
      (exists last, e = AuthenticationError MAX_ATTEMPTS last)
      /\ session (final (authenticate_from left w)) = session w
  end.
Proof.
  revert w; induction left as [|left IH]; intros w.
  - simpl. split; [eexists; reflexivity | reflexivity].
  - rewrite authenticate_from_S.
    pose proof (next_response_session w) as Hs.
    destruct (next_response w) as [r w1]. simpl in Hs.
    destruct (token_of r) as [t|].
    + unfold session_live. simpl. unfold TOKEN_LIFETIME. apply Z.ltb_lt. lia.
    + destruct left as [|left].
      * simpl. split; [eexists; reflexivity | exact Hs].
      * specialize (IH (advance w1 (backoff (MAX_ATTEMPTS - S left)))).
        destruct (authenticate_from (S left) _) as [[ev w2] res].
        unfold result, final in *. simpl in *.
        destruct res; [exact IH|]. rewrite <- Hs. exact IH.
Qed.

Lemma settle_unauthorized_run req reauthed r w :
  settle_unauthorized req reauthed r w
  = if unauthorized r then
      if reauthed then ([], w, Throw AuthenticationRejected)
      else
        match authenticate w with
        | (ev, w1, Throw e) => (Reauthenticate :: ev, w1, Throw e)
        | (ev, w1, Return _) =>
            let (r', w2) := next_response w1 in
            (Reauthenticate :: ev ++ [Http (Replay req (bearer_of w1)) r'], w2,
             if unauthorized r' then Throw AuthenticationRejected
             else Return (r', true))
        end
    else ([], w, Return (r, reauthed)).
Proof.
  unfold settle_unauthorized.
  destruct (unauthorized r); [|reflexivity].
  destruct reauthed; [reflexivity|].
  unfold bind at 1, emit. unfold bind at 1.
  destruct (authenticate w) as [[ev w1] [[]|e]]; [|reflexivity].
  unfold bind, current_bearer, http.
  destruct (next_response w1) as [r' w2].
  destruct (unauthorized r'); reflexivity.
Qed.

Lemma request_from_S left reauthed req w :
  request_from (S left) reauthed req w
  = match ensure_session w with
    | (ev0, w0, Throw e) => (ev0, w0, Throw e)
    | (ev0, w0, Return _) =>
        let (r, w1) := next_response w0 in
        let sent := Http (Send req (bearer_of w0)) r in
        match settle_unauthorized req reauthed r w1 with
        | (ev1, w2, Throw e) => (ev0 ++ sent :: ev1, w2, Throw e)
        | (ev1, w2, Return rr) =>
            match success (fst rr) with
            | Some p => (ev0 ++ sent :: ev1, w2, Return p)
            | None =>
                if retryable (fst rr) then
                  match left with
                  | O => (ev0 ++ sent :: ev1, w2, Throw (RemoteError (fst rr)))
                  | S _ =>
                      match request_from left (snd rr) req
                              (advance w2 (backoff (MAX_ATTEMPTS - left))) with
                      | (ev2, w3, res) =>
                          (ev0 ++ sent :: ev1
                             ++ Sleep (backoff (MAX_ATTEMPTS - left)) :: ev2,
                           w3, res)
                      end
                  end
                else (ev0 ++ sent :: ev1, w2, Throw (RemoteError (fst rr)))
            end
        end
    end.
Proof.
  cbn [request_from]. unfold bind at 1, ensure_session.
  destruct (if session_live w then _ else _) as [[ev0 w0] [[]|e]]; [|reflexivity].
  unfold bind at 1, current_bearer. unfold bind at 1, http.
  destruct (next_response w0) as [r w1].
  unfold bind at 1.
  destruct (settle_unauthorized req reauthed r w1) as [[ev1 w2] [rr|e]];
    [|simpl; reflexivity].
  destruct (success (fst rr)) as [p|].
  - simpl. rewrite app_nil_r. reflexivity.
  - destruct (retryable (fst rr)).
    + destruct left as [|left].
      * simpl. rewrite app_nil_r. reflexivity.
      * unfold bind, sleep.
        destruct (request_from (S left) _ _ _) as [[ev2 w3] res]. reflexivity.
    + simpl. rewrite app_nil_r. reflexivity.
Qed.

Lemma existsb_quiet g (ev : list Event) :
  (forall e, auth_event e = true -> g e = false) ->
  forallb auth_event ev = true -> existsb g ev = false.
Proof.
  intros Q. induction ev as [|e ev IH]; simpl; [reflexivity|].
  rewrite andb_true_iff. intros [A B]. rewrite (Q e A), (IH B). reflexivity.
Qed.

Lemma ensure_session_events w :
  forallb auth_event (emitted (ensure_session w)) = true.
Proof.
  unfold ensure_session. destruct (session_live w); [reflexivity|].
  apply authenticate_from_events.
Qed.

Ltac quiet_event :=
  let e := fresh "e" in
  intros e; destruct e as [[| |] | | |]; simpl; congruence.

Lemma auth_events_quiet (ev : list Event) :
  forallb auth_event ev = true ->
  count is_send ev = 0%nat /\ count is_reauth ev = 0%nat
  /\ count is_replay ev = 0%nat /\ count is_invoke ev = 0%nat
  /\ existsb got_unauthorized ev = false
  /\ existsb unauthorized_replay ev = false.
Proof.
  intros A. repeat split;
    (apply count_quiet || apply existsb_quiet); try exact A; quiet_event.
Qed.

Lemma settle_unauthorized_facts req reauthed r w :
  let x := settle_unauthorized req reauthed r w in
  let ev := emitted x in
  count is_send ev = 0%nat /\ count is_invoke ev = 0%nat
  /\ (unauthorized r = false -> ev = [] /\ result x = Return (r, reauthed))
  /\ (unauthorized r = true -> reauthed = true ->
      ev = [] /\ result x = Throw AuthenticationRejected)
  /\ (unauthorized r = true -> reauthed = false ->
      count is_reauth ev = 1%nat
      /\ match result x with
         | Return rr =>
             snd rr = true /\ count is_replay ev = 1%nat
             /\ existsb unauthorized_replay ev = false
         | Throw e =>
             (e = AuthenticationRejected /\ count is_replay ev = 1%nat
              /\ exists ev1 y, ev = ev1 ++ [y] /\ unauthorized_replay y = true)
             \/ ((exists last, e = AuthenticationError MAX_ATTEMPTS last)
                 /\ count is_replay ev = 0%nat
                 /\ existsb unauthorized_replay ev = false)
         end).
Proof.
  cbv zeta. rewrite settle_unauthorized_run.
  destruct (unauthorized r) eqn:U.
  2:{ simpl. repeat split; try reflexivity; discriminate. }
  destruct reauthed.
  { simpl. repeat split; try reflexivity; discriminate. }
  pose proof (authenticate_from_events MAX_ATTEMPTS w) as A.
  pose proof (authenticate_from_result MAX_ATTEMPTS w) as R.
  fold authenticate in A, R.
  destruct (authenticate w) as [[ev w1] [[]|e]]; unfold emitted, result, final in *;
    simpl in A, R |- *;
    destruct (auth_events_quiet ev A) as (Q1 & Q2 & Q3 & Q4 & Q5 & Q6).
  - destruct (next_response w1) as [r' w2]. simpl.
    rewrite !count_cons, !count_app, !count_cons, ?existsb_app. simpl.
    rewrite Q1, Q2, Q3, Q4, Q6. simpl.
    split; [reflexivity|]. split; [reflexivity|].
    split; [discriminate|]. split; [discriminate|].
    intros _ _. split; [reflexivity|].
    destruct (unauthorized r') eqn:U'.
    + left. split; [reflexivity|]. split; [reflexivity|].
      exists (Reauthenticate :: ev), (Http (Replay req (bearer_of w1)) r').
      split; [reflexivity | exact U'].
    + simpl. repeat split; reflexivity.
  - rewrite !count_cons. simpl. rewrite Q1, Q2, Q3, Q4, Q6.
    split; [reflexivity|]. split; [reflexivity|].
    split; [discriminate|]. split; [discriminate|].
    intros _ _. split; [reflexivity|]. right.
    destruct R as [L _]. repeat split; try reflexivity. exact L.
Qed.

Lemma request_from_ok left : forall reauthed req w,
  run_ok left reauthed (request_from left reauthed req w).
Proof.
  induction left as [|left IH]; intros reauthed req w.
  { unfold run_ok, throw, emitted, result, count; simpl.
    repeat split; try lia; try discriminate. destruct reauthed; simpl; lia. }
  rewrite request_from_S.
  pose proof (ensure_session_events w) as A0.
  destruct (ensure_session w) as [[ev0 w0] [[]|e0]]; unfold emitted in A0; simpl in A0;
    destruct (auth_events_quiet ev0 A0) as (Q1 & Q2 & Q3 & Q4 & Q5 & Q6).
  2:{ unfold run_ok, emitted, result; simpl. rewrite Q1, Q2, Q3, Q4, Q5, Q6.
      repeat split; try lia; try discriminate. destruct reauthed; simpl; lia. }
  destruct (next_response w0) as [r w1]. cbv zeta.
  pose proof (settle_unauthorized_facts req reauthed r w1) as F. cbv zeta in F.
  destruct (settle_unauthorized req reauthed r w1) as [[ev1 w2] res1].
  unfold emitted, result in F; simpl in F.
  destruct F as (S1 & S2 & Fno & Fre & Ffirst).
  destruct (unauthorized r) eqn:U.
  - (* the send came back unauthorized *)
    destruct reauthed.
    + destruct (Fre eq_refl eq_refl) as [-> ->].
      unfold run_ok, emitted, result; simpl.
      tally.
      rewrite Q1, Q2, Q3, Q4, Q5, Q6, U. simpl.
      repeat split; try lia; try discriminate.
    + destruct (Ffirst eq_refl eq_refl) as [C1 Fres]. clear Fno Fre Ffirst.
      destruct res1 as [rr|e].
      * destruct Fres as (Hflag & C2 & X).
        assert (Common : forall (res : Result Payload),
                   run_ok (S left) false
                     (ev0 ++ Http (Send req (bearer_of w0)) r :: ev1, w2, res)).
        { intros res. unfold run_ok, emitted, result; simpl.
          tally.
          rewrite Q1, Q2, Q3, Q4, Q5, Q6, S1, S2, C1, C2, X, U. simpl.
          repeat split; try lia; try discriminate. }
        destruct (success (fst rr)) as [p|]; [apply Common|].
        destruct (retryable (fst rr)); [|apply Common].
        destruct left as [|left]; [apply Common|].
        set (d := backoff (MAX_ATTEMPTS - S left)).
        specialize (IH (snd rr) req (advance w2 d)).
        rewrite Hflag in *.
        destruct (request_from (S left) true req _) as [[ev2 w3] res].
        unfold run_ok, emitted, result in IH |- *; simpl in IH |- *.
        destruct IH as (I1 & I2 & I3 & I4 & I5 & I6 & I7).
        tally.
        rewrite Q1, Q2, Q3, Q4, Q5, Q6, S1, S2, C1, C2, X, U, I7. simpl.
        assert (count is_reauth ev2 = 0%nat) by lia.
        assert (count is_replay ev2 = 0%nat) by lia.
        repeat split; try lia.
        { match goal with E : existsb unauthorized_replay ev2 = true |- _ =>
            exact (proj1 (I6 E)) end. }
        { match goal with E : existsb unauthorized_replay ev2 = true |- _ =>
            destruct (I6 E) as [_ (ev' & y & -> & Y)] end.
          exists (ev0 ++ Http (Send req (bearer_of w0)) r :: ev1
                    ++ Sleep d :: ev'), y.
          split; [|exact Y].
          rewrite <- !app_assoc. simpl. rewrite <- app_assoc. reflexivity. }
      * unfold run_ok, emitted, result; simpl.
        tally.
        rewrite Q1, Q2, Q3, Q4, Q5, Q6, S1, S2, C1, U. simpl.
        destruct Fres as [(-> & C2 & ev' & y & -> & Y) | ((last & ->) & C2 & X)].
        -- rewrite C2. repeat split; try lia.
           exists (ev0 ++ Http (Send req (bearer_of w0)) r :: ev'), y.
           split; [|exact Y]. rewrite <- app_assoc. reflexivity.
        -- rewrite C2, X. repeat split; try lia; try discriminate.
           intros _. exists last. reflexivity.
  - (* the send was not unauthorized *)
    destruct (Fno eq_refl) as [-> ->]. clear Fno Fre Ffirst. simpl.
    assert (Common : forall (res : Result Payload),
               run_ok (S left) reauthed
                 (ev0 ++ [Http (Send req (bearer_of w0)) r], w2, res)).
    { intros res. unfold run_ok, emitted, result; simpl.
      tally.
      rewrite Q1, Q2, Q3, Q4, Q5, Q6, U. simpl.
      repeat split; try lia; try discriminate. destruct reauthed; simpl; lia. }
    destruct (success r) as [p|]; [apply Common|].
    destruct (retryable r); [|apply Common].
    destruct left as [|left]; [apply Common|].
    set (d := backoff (MAX_ATTEMPTS - S left)).
    specialize (IH reauthed req (advance w2 d)).
    destruct (request_from (S left) reauthed req _) as [[ev2 w3] res].
    unfold run_ok, emitted, result in IH |- *; simpl in IH |- *.
    destruct IH as (I1 & I2 & I3 & I4 & I5 & I6 & I7).
    tally. rewrite Q1, Q2, Q3, Q4, Q5, Q6, U, I7. simpl.
    repeat split; try lia; try assumption.
    { match goal with E : existsb unauthorized_replay ev2 = true |- _ =>
        exact (proj1 (I6 E)) end. }
    { match goal with E : existsb unauthorized_replay ev2 = true |- _ =>
        destruct (I6 E) as [_ (ev' & y & -> & Y)] end.
      exists (ev0 ++ Http (Send req (bearer_of w0)) r :: Sleep d :: ev'), y.
      split; [|exact Y]. rewrite <- !app_assoc. reflexivity. }
Qed.
End PanelRuns.

Import Panel.

Lemma authenticate_from_attempts left w :
  (count is_token_exchange (emitted (authenticate_from left w)) <= left)%nat.
Proof.
  revert w; induction left as [|left IH]; intros w;
    [unfold emitted, count; simpl; lia|].
  rewrite authenticate_from_S.
  destruct (next_response w) as [r w1].
  destruct (token_of r) as [t|]; [unfold emitted, count; simpl; lia|].
  destruct left as [|left]; [unfold emitted, count; simpl; lia|].
  set (d := backoff (MAX_ATTEMPTS - S left)).
  specialize (IH (advance w1 d)).
  destruct (authenticate_from (S left) _) as [[ev w2] res].
  unfold emitted in *; simpl in *. rewrite !count_cons. simpl. lia.
Qed.

(** Every delay lies between two attempts: a run of [n >= 1] attempts has
    [n - 1] delays. *)
Lemma authenticate_from_gaps left w :
  count is_token_exchange (emitted (authenticate_from (S left) w))
  = S (length (delays (emitted (authenticate_from (S left) w)))).
Proof.
  revert w; induction left as [|left IH]; intros w;
    rewrite authenticate_from_S; destruct (next_response w) as [r w1];
    (destruct (token_of r) as [t|]; [reflexivity|]); [reflexivity|].
  set (d := backoff (MAX_ATTEMPTS - S left)).
  specialize (IH (advance w1 d)).
  destruct (authenticate_from (S left) _) as [[ev w2] res].
  unfold emitted in *; simpl in *. rewrite !count_cons. simpl.
  rewrite IH. reflexivity.
Qed.

Lemma next_response_cons w r rest :
  script w = r :: rest -> next_response w = (r, with_script w rest).
Proof. unfold next_response. intros ->. reflexivity. Qed.

Lemma authenticate_exhausted (w : World) r1 r2 r3 rest :
  script w = r1 :: r2 :: r3 :: rest ->
  token_of r1 = None -> token_of r2 = None ->
  token_of r3 = None ->
  exists w',
    authenticate w
    = ([Http TokenExchange r1; Sleep 1000;
        Http TokenExchange r2; Sleep 2000;
        Http TokenExchange r3],
       w', Throw (AuthenticationError 3 r3))
    /\ session w' = session w
    /\ script w' = rest
    /\ clock w' = clock w + 3000.
Proof.
  intros S T1 T2 T3. unfold authenticate, MAX_ATTEMPTS.
  rewrite authenticate_from_S, (next_response_cons _ _ _ S), T1.
  rewrite authenticate_from_S; unfold next_response at 1;
    cbn [script advance with_script]; rewrite T2.
  rewrite authenticate_from_S; unfold next_response at 1;
    cbn [script advance with_script]; rewrite T3.
  eexists. split; [reflexivity|].
  cbn [session script clock advance with_script].
  repeat split. change (backoff (MAX_ATTEMPTS - 2)) with 1000.
  change (backoff (MAX_ATTEMPTS - 1)) with 2000. lia.
Qed.




Lemma retryable_not_unauthorized r : retryable r = true -> unauthorized r = false.
Proof.
  destruct r as [p|c| |]; simpl; try reflexivity.
  rewrite andb_true_iff, !Z.leb_le. intros [A B]. apply Z.eqb_neq. lia.
Qed.

Lemma retryable_not_success r : retryable r = true -> success r = None.
Proof. destruct r; simpl; congruence. Qed.

Lemma request_from_live left reauthed req w s r rest :
  session w = Some s -> clock w < expiry s ->
  script w = r :: rest -> unauthorized r = false ->
  request_from (S left) reauthed req w
  = let sent := Http (Send req (bearer s)) r in
    let w1 := with_script w rest in
    match success r with
    | Some p => ([sent], w1, Return p)
    | None =>
        if retryable r then
          match left with
          | O => ([sent], w1, Throw (RemoteError r))
          | S _ =>
              match request_from left reauthed req
                      (advance w1 (backoff (MAX_ATTEMPTS - left))) with
              | (ev2, w3, res) =>
                  (sent :: Sleep (backoff (MAX_ATTEMPTS - left)) :: ev2, w3, res)
              end
          end
        else ([sent], w1, Throw (RemoteError r))
    end.
Proof.
  intros Hs Hc Hr U. rewrite request_from_S.
  unfold ensure_session, session_live. rewrite Hs.
  apply Z.ltb_lt in Hc. rewrite Hc.
  rewrite (next_response_cons _ _ _ Hr). cbv zeta.
  rewrite settle_unauthorized_run, U. unfold bearer_of. rewrite Hs.
  reflexivity.
Qed.

Section RetryPolicy.

Variables (req : Request) (w : World) (s : Session).
Hypothesis Hs : session w = Some s.
Hypothesis Hc : clock w + 3000 < expiry s.

Local Abbreviation sent r := (Http (Send req (bearer s)) r).

Ltac live_step r rest :=
  rewrite (request_from_live _ _ _ _ s r rest);
  [ | cbn [session advance with_script]; exact Hs
    | cbn [clock advance with_script];
      try change (backoff (MAX_ATTEMPTS - 2)) with 1000;
      try change (backoff (MAX_ATTEMPTS - 1)) with 2000; lia
    | cbn [script advance with_script]; try reflexivity; try assumption
    | try (apply retryable_not_unauthorized; assumption) ].

Lemma request_exhausted r1 r2 r3 rest :
  script w = r1 :: r2 :: r3 :: rest ->
  retryable r1 = true -> retryable r2 = true -> retryable r3 = true ->
  exists w',
    request req w
    = ([sent r1; Sleep 1000; sent r2; Sleep 2000; sent r3], w',
       Throw (RemoteError r3)).
Proof.
  intros S R1 R2 R3. unfold request, MAX_ATTEMPTS.
  live_step r1 (r2 :: r3 :: rest). cbv zeta.
  rewrite (retryable_not_success _ R1), R1.
  live_step r2 (r3 :: rest). cbv zeta.
  rewrite (retryable_not_success _ R2), R2.
  live_step r3 rest. cbv zeta.
  rewrite (retryable_not_success _ R3), R3.
  eexists. reflexivity.
Qed.

Lemma request_client_error c rest :
  script w = Status c :: rest -> 400 <= c <= 499 -> c <> 401 ->
  exists w',
    request req w = ([sent (Status c)], w', Throw (RemoteError (Status c))).
Proof.
  intros S C N. unfold request, MAX_ATTEMPTS.
  live_step (Status c) rest.
  2:{ simpl. apply Z.eqb_neq. exact N. }
  cbv zeta. simpl success. cbv iota.
  replace (retryable (Status c)) with false.
  2:{ simpl. symmetry. apply andb_false_iff. left. apply Z.leb_gt. lia. }
  eexists. reflexivity.
Qed.

Lemma request_recovers_once r1 p rest :
  script w = r1 :: Ok p :: rest -> retryable r1 = true ->
  exists w',
    request req w = ([sent r1; Sleep 1000; sent (Ok p)], w', Return p).
Proof.
  intros S R1. unfold request, MAX_ATTEMPTS.
  live_step r1 (Ok p :: rest). cbv zeta.
  rewrite (retryable_not_success _ R1), R1.
  live_step (Ok p) rest. 2:{ reflexivity. }
  eexists. reflexivity.
Qed.

Lemma request_recovers_twice r1 r2 p rest :
  script w = r1 :: r2 :: Ok p :: rest ->
  retryable r1 = true -> retryable r2 = true ->
  exists w',
    request req w
    = ([sent r1; Sleep 1000; sent r2; Sleep 2000; sent (Ok p)], w', Return p).
Proof.
  intros S R1 R2. unfold request, MAX_ATTEMPTS.
  live_step r1 (r2 :: Ok p :: rest). cbv zeta.
  rewrite (retryable_not_success _ R1), R1.
  live_step r2 (Ok p :: rest). cbv zeta.
  rewrite (retryable_not_success _ R2), R2.
  live_step (Ok p) rest. 2:{ reflexivity. }
  eexists. reflexivity.
Qed.

End RetryPolicy.



(** ** Unauthorized responses *)



(** A request whose re-authentication fails: the authentication error is
    the outcome and nothing is replayed. *)
Example request_reauthentication_fails :
  let w := PanelSamples.signed_in [Status 401; Status 500; Timeout; Status 500] in
  result (request PanelSamples.list_users w)
  = Throw (AuthenticationError 3 (Status 500))
  /\ count is_reauth (emitted (request PanelSamples.list_users w)) = 1%nat
  /\ count is_replay (emitted (request PanelSamples.list_users w)) = 0%nat.
Proof. cbv zeta. repeat split. Qed.

Lemma count_le f g (ev : list Event) :
  (forall e, f e = true -> g e = true) -> (count f ev <= count g ev)%nat.
Proof.
  intros I. induction ev as [|e ev IH]; [unfold count; simpl; lia|].
  rewrite !count_cons. destruct (f e) eqn:F; [rewrite (I e F); lia|].
  destruct (g e); lia.
Qed.

Lemma request_no_invoke f req w :
  (forall e, f e = true -> is_invoke e = true) ->
  count f (emitted (request req w)) = 0%nat.
Proof.
  intros I. pose proof (count_le f is_invoke (emitted (request req w)) I).
  destruct (request_from_ok MAX_ATTEMPTS false req w) as (_ & _ & _ & _ & _ & _ & P7).
  fold (request req w) in P7. cbv zeta in P7. lia.
Qed.

Lemma getUser_run u w :
  getUser u w
  = match request (get_request u) w with
    | (ev, w1, Return p) =>
        (Invoke (OpGetUser u) :: ev, w1,
         match p with PAccount a => Return a | _ => Throw MalformedResponse end)
    | (ev, w1, Throw e) =>
        (Invoke (OpGetUser u) :: ev, w1, Throw (not_found_of u e))
    end.
Proof.
  unfold getUser, bind, emit, catch, throw.
  destruct (request (get_request u) w) as [[ev w1] [p|e]]; simpl.
  - destruct p; simpl; rewrite app_nil_r; reflexivity.
  - rewrite app_nil_r. reflexivity.
Qed.

Lemma createUser_run u q e w :
  createUser u q e w
  = match request (create_request u (identity_of w) q e) (minted w) with
    | (ev, w1, Return p) =>
        (Invoke (OpCreateUser u q e) :: ev, w1,
         match p with PAccount a => Return a | _ => Throw MalformedResponse end)
    | (ev, w1, Throw err) => (Invoke (OpCreateUser u q e) :: ev, w1, Throw err)
    end.
Proof.
  unfold createUser, bind, emit, fresh_identity.
  destruct (request _ (minted w)) as [[ev w1] [p|err]]; simpl.
  - destruct p; simpl; rewrite app_nil_r; reflexivity.
  - reflexivity.
Qed.

Lemma getUser_invokes u w :
  count is_get_user (emitted (getUser u w)) = 1%nat
  /\ count is_create_user (emitted (getUser u w)) = 0%nat.
Proof.
  rewrite getUser_run.
  pose proof (request_no_invoke is_get_user (get_request u) w) as G.
  pose proof (request_no_invoke is_create_user (get_request u) w) as C.
  destruct (request (get_request u) w) as [[ev w1] [p|e]];
    unfold emitted in *; simpl in *; rewrite !count_cons; simpl;
    (rewrite G, C; [split; reflexivity | | ];
     intros [| | |[]]; simpl; congruence).
Qed.

Lemma createUser_invokes u q e w :
  count is_get_user (emitted (createUser u q e w)) = 0%nat
  /\ count is_create_user (emitted (createUser u q e w)) = 1%nat.
Proof.
  rewrite createUser_run.
  pose proof (request_no_invoke is_get_user
                (create_request u (identity_of w) q e) (minted w)) as G.
  pose proof (request_no_invoke is_create_user
                (create_request u (identity_of w) q e) (minted w)) as C.
  destruct (request _ (minted w)) as [[ev w1] [p|err]];
    unfold emitted in *; simpl in *; rewrite !count_cons; simpl;
    (rewrite G, C; [split; reflexivity | | ];
     intros [| | |[]]; simpl; congruence).
Qed.



Example getOrCreateUser_bob :
  let w := PanelSamples.signed_in [Status 404; Ok (PAccount PanelSamples.alice)] in
  result (getOrCreateUser "bob" 1000 None w) = Return PanelSamples.alice
  /\ count is_get_user (emitted (getOrCreateUser "bob" 1000 None w)) = 1%nat
  /\ count is_create_user (emitted (getOrCreateUser "bob" 1000 None w)) = 1%nat.
Proof. cbv zeta. repeat split. Qed.



Local Infix "+++" := String.append (right associativity, at level 60).



(** ** Lazy construction *)

Section SingleFlight.
Import Singleton.

Lemma run_app a b r : run (a ++ b) r = run b (run a r).
Proof. apply fold_left_app. Qed.

Lemma first_uses_join (cs : list Caller) : forall r waiting,
  instance r = None -> pending r = Some waiting ->
  run (map FirstUse cs) r
  = {| instance := None; pending := Some (waiting ++ cs);
       handshakes := handshakes r; wire := wire r;
       delivered := delivered r; refused := refused r |}.
Proof.
  induction cs as [|c cs IH]; intros r waiting I P.
  - simpl. rewrite app_nil_r. destruct r; simpl in *; congruence.
  - simpl. unfold first_use at 1. rewrite I, P.
    rewrite IH with (waiting := waiting ++ [c]) by reflexivity. simpl.
    rewrite <- app_assoc. reflexivity.
Qed.

Lemma first_uses_served (cs : list Caller) : forall r k,
  instance r = Some k ->
  run (map FirstUse cs) r
  = {| instance := Some k; pending := pending r;
       handshakes := handshakes r; wire := wire r;
       delivered := delivered r ++ map (fun c => (c, k)) cs;
       refused := refused r |}.
Proof.
  induction cs as [|c cs IH]; intros r k I.
  - simpl. rewrite app_nil_r. destruct r; simpl in *; congruence.
  - simpl. unfold first_use at 1. rewrite I.
    rewrite IH with (k := k) by reflexivity. simpl. rewrite <- app_assoc. reflexivity.
Qed.

Lemma handshakes_bounded (steps : list Step) : forall r,
  (handshakes (run steps r) + slack (run steps r)
   <= handshakes r + slack r + settles steps)%nat.
Proof.
  induction steps as [|s steps IH]; intros r; [unfold settles; simpl; lia|].
  change (run (s :: steps) r) with (run steps (step r s)).
  specialize (IH (step r s)).
  assert (handshakes (step r s) + slack (step r s)
          <= handshakes r + slack r
             + settles [s])%nat as B.
  { unfold settles. destruct s as [c | env]; simpl.
    - unfold first_use, slack. destruct (instance r); simpl; [lia|].
      destruct (pending r); simpl; lia.
    - unfold settle, slack. destruct (pending r) eqn:P; simpl; [|rewrite P; lia].
      destruct (authenticate (fresh env)) as [[ev k] [[]|e]]; simpl; lia. }
  change (s :: steps) with ([s] ++ steps).
  unfold settles in *. rewrite filter_app, length_app. lia.
Qed.

Lemma first_uses_started c0 before :
  run (FirstUse c0 :: map FirstUse before) empty
  = {| instance := None; pending := Some (c0 :: before);
       handshakes := 1; wire := []; delivered := []; refused := [] |}.
Proof.
  change (run (FirstUse c0 :: map FirstUse before) empty)
    with (run (map FirstUse before) (first_use c0 empty)).
  rewrite first_uses_join with (waiting := [c0]) by reflexivity. reflexivity.
Qed.

Lemma handshake_runs c0 before env :
  let r := run (FirstUse c0 :: map FirstUse before ++ [Settle env]) empty in
  handshakes r = 1%nat /\ wire r = emitted (authenticate (fresh env)).
Proof.
  cbv zeta.
  change (FirstUse c0 :: map FirstUse before ++ [Settle env])
    with ((FirstUse c0 :: map FirstUse before) ++ [Settle env]).
  rewrite run_app, first_uses_started.
  change (run [Settle env] ?r) with (settle env r).
  unfold settle. cbn [pending].
  destruct (authenticate (fresh env)) as [[ev k] [[]|e]]; split; reflexivity.
Qed.

Lemma handshake_settled c0 before after env ev k :
  authenticate (fresh env) = (ev, k, Return tt) ->
  run ((FirstUse c0 :: map FirstUse before ++ [Settle env])
         ++ map FirstUse after) empty
  = {| instance := Some k; pending := None; handshakes := 1; wire := ev;
       delivered := map (fun c => (c, k)) (c0 :: before ++ after);
       refused := [] |}.
Proof.
  intros A.
  change (FirstUse c0 :: map FirstUse before ++ [Settle env])
    with ((FirstUse c0 :: map FirstUse before) ++ [Settle env]).
  rewrite !run_app, first_uses_started.
  change (run [Settle env] ?r) with (settle env r).
  unfold settle. cbn [pending]. rewrite A.
  rewrite first_uses_served with (k := k) by reflexivity.
  cbn [pending handshakes wire delivered refused app map].
  rewrite map_app. reflexivity.
Qed.

End SingleFlight.



(** * Further properties of the payment client *)

(** ** The digest and its hex form *)

Section Digest.

Import Crypto MercuryoApi.

Lemma be_bytes_length n x : length (be_bytes n x) = n.
Proof.
  unfold be_bytes. rewrite length_map, length_rev, length_seq. reflexivity.
Qed.

Lemma be_bytes_octets n x : Forall octet (be_bytes n x).
Proof.
  unfold be_bytes. apply Forall_map, Forall_forall. intros i _.
  unfold octet. apply Z.mod_pos_bound. lia.
Qed.

Lemma round_length s kw : length (round s kw) = length s.
Proof.
  unfold round.
  destruct s as [|a [|b [|c [|d [|e [|f [|g [|h [|i s]]]]]]]]]; reflexivity.
Qed.

Lemma rounds_length l h : length (fold_left round l h) = length h.
Proof.
  revert h; induction l as [|kw l IH]; intros h; simpl; [reflexivity|].
  rewrite IH. apply round_length.
Qed.

Lemma compress_length h block : length (compress h block) = length h.
Proof.
  unfold compress. rewrite length_map, length_combine, rounds_length.
  apply Nat.min_id.
Qed.

Lemma blocks_length n h b : length (blocks n h b) = length h.
Proof.
  revert h b; induction n as [|n IH]; intros h b; simpl; [reflexivity|].
  rewrite IH. apply compress_length.
Qed.

Lemma flat_map_be_bytes_length l :
  length (flat_map (be_bytes 4) l) = (4 * length l)%nat.
Proof.
  induction l as [|x l IH]; [reflexivity|]. cbn [flat_map].
  rewrite length_app, be_bytes_length, IH. simpl. lia.
Qed.

Lemma flat_map_be_bytes_octets l : Forall octet (flat_map (be_bytes 4) l).
Proof.
  induction l as [|x l IH]; [constructor|]. cbn [flat_map].
  apply Forall_app. split; [apply be_bytes_octets | exact IH].
Qed.

Lemma sha256_length m : length (sha256 m) = 32%nat.
Proof.
  unfold sha256. rewrite flat_map_be_bytes_length, blocks_length. reflexivity.
Qed.

Lemma sha256_octets m : Forall octet (sha256 m).
Proof. apply flat_map_be_bytes_octets. Qed.

Lemma hex_length b : length (hex b) = (2 * length b)%nat.
Proof.
  unfold hex. induction b as [|x b IH]; simpl; [reflexivity|]. rewrite IH. lia.
Qed.

Lemma hex_digit_lower d : 0 <= d < 16 -> lower_hex (hex_digit d) = true.
Proof.
  intros D. unfold hex_digit, lower_hex.
  destruct (d <? 10) eqn:E; [apply Z.ltb_lt in E | apply Z.ltb_ge in E];
    apply orb_true_iff; [left | right]; apply andb_true_iff;
    split; apply Z.leb_le; lia.
Qed.

Lemma hex_lower b : Forall octet b -> forallb lower_hex (hex b) = true.
Proof.
  unfold hex. induction 1 as [|x b X _ IH]; simpl; [reflexivity|].
  unfold octet in X.
  rewrite !hex_digit_lower, IH; [reflexivity | |].
  - apply Z.mod_pos_bound. lia.
  - split; [apply Z.div_pos; lia | apply Z.div_lt_upper_bound; lia].
Qed.

Lemma hex_digit_inj a b :
  0 <= a < 16 -> 0 <= b < 16 -> hex_digit a = hex_digit b -> a = b.
Proof.
  unfold hex_digit. intros A B.
  destruct (a <? 10) eqn:Ea; destruct (b <? 10) eqn:Eb;
    try apply Z.ltb_lt in Ea; try apply Z.ltb_ge in Ea;
    try apply Z.ltb_lt in Eb; try apply Z.ltb_ge in Eb; lia.
Qed.

Lemma hex_inj a : forall b,
  Forall octet a -> Forall octet b -> hex a = hex b -> a = b.
Proof.
  induction a as [|x a IH]; intros [|y b] A B E; try discriminate E;
    [reflexivity|].
  inversion A as [|? ? X A']; inversion B as [|? ? Y B']; subst.
  unfold hex in E; simpl in E. injection E as E1 E2 E3.
  unfold octet in X, Y.
  apply hex_digit_inj in E1;
    [|split; [apply Z.div_pos; lia | apply Z.div_lt_upper_bound; lia]..].
  apply hex_digit_inj in E2; [|apply Z.mod_pos_bound; lia..].
  f_equal; [|apply IH; assumption].
  rewrite (Z.div_mod x 16), (Z.div_mod y 16) by lia. congruence.
Qed.

Lemma hmac_sha256_length key msg : length (hmac_sha256 key msg) = 32%nat.
Proof. apply sha256_length. Qed.

Lemma hmac_sha256_octets key msg : Forall octet (hmac_sha256 key msg).
Proof. apply sha256_octets. Qed.

End Digest.

Lemma calculatedSignature_format_aux
    (this : Mercuryo.MercuryoService) (payload : jsstring) :
  length (Mercuryo.calculatedSignature this payload) = 64%nat
  /\ forallb MercuryoApi.lower_hex (Mercuryo.calculatedSignature this payload)
     = true.
Proof.
  unfold Mercuryo.calculatedSignature, Crypto.createHmac_sha256_hex. split.
  - rewrite hex_length, hmac_sha256_length. reflexivity.
  - apply hex_lower, hmac_sha256_octets.
Qed.

(** X1.  The signature the service computes for a payload is always 64
    code units long, each a digit or a letter from a to f. *)
Theorem calculatedSignature_format
    (this : Mercuryo.MercuryoService) (payload : jsstring) :
  length (Mercuryo.calculatedSignature this payload) = 64%nat
  /\ forallb MercuryoApi.lower_hex (Mercuryo.calculatedSignature this payload)
     = true.
Proof. apply calculatedSignature_format_aux. Qed.

(** X2.  A signature that is not 64 code units long, or that holds a code
    unit other than a digit or a letter from a to f (an uppercase hex digit,
    a prefix, white space), is rejected for every payload. *)
Theorem verifyWebhookSignature_rejects_malformed
    (this : Mercuryo.MercuryoService) (payload signature : jsstring) :
  length signature <> 64%nat
  \/ forallb MercuryoApi.lower_hex signature = false ->
  Mercuryo.verifyWebhookSignature this payload signature = false.
Proof.
  intros M. apply verify_rejects_iff. intros ->.
  destruct (calculatedSignature_format_aux this payload) as [L H].
  destruct M as [M | M]; [exact (M L) | rewrite H in M; discriminate M].
Qed.

Lemma verifyWebhookSignature_rejects_malformed_witness :
  Mercuryo.verifyWebhookSignature Samples.service Samples.settlement_text
    Samples.settlement_signature = true
  /\ Mercuryo.verifyWebhookSignature Samples.service Samples.settlement_text
       MercuryoApi.upper_signature = false
  /\ Mercuryo.verifyWebhookSignature Samples.service Samples.settlement_text []
     = false.
Proof.
  split; [vm_compute; reflexivity|]. split.
  - apply verifyWebhookSignature_rejects_malformed. right. reflexivity.
  - apply verifyWebhookSignature_rejects_malformed. left. discriminate.
Defined.

Lemma accepted_iff_digests
    (this : Mercuryo.MercuryoService) (payload payload' : jsstring) :
  Mercuryo.verifyWebhookSignature this payload
    (Mercuryo.calculatedSignature this payload') = true
  <-> Crypto.hmac_sha256 (Crypto.utf8 (Mercuryo.webhookSecret this))
        (Crypto.utf8 payload)
      = Crypto.hmac_sha256 (Crypto.utf8 (Mercuryo.webhookSecret this))
          (Crypto.utf8 payload').
Proof.
  rewrite verify_iff.
  unfold Mercuryo.calculatedSignature, Crypto.createHmac_sha256_hex. split.
  - intros E. symmetry. apply hex_inj; [apply hmac_sha256_octets.. | exact E].
  - intros ->. reflexivity.
Qed.

(** X3.  Comparing hex strings loses nothing: the signature computed for
    one payload is accepted for another exactly when the two 32-byte HMAC
    digests are equal. *)
Theorem verifyWebhookSignature_compares_digests
    (this : Mercuryo.MercuryoService) (payload payload' : jsstring) :
  Mercuryo.verifyWebhookSignature this payload
    (Mercuryo.calculatedSignature this payload') = true
  <-> Crypto.hmac_sha256 (Crypto.utf8 (Mercuryo.webhookSecret this))
        (Crypto.utf8 payload)
      = Crypto.hmac_sha256 (Crypto.utf8 (Mercuryo.webhookSecret this))
          (Crypto.utf8 payload').
Proof. apply accepted_iff_digests. Qed.

Lemma verifyWebhookSignature_compares_digests_witness :
  Mercuryo.verifyWebhookSignature Samples.service [0xD800]
    (Mercuryo.calculatedSignature Samples.service [0xFFFD]) = true.
Proof.
  apply (proj2 (verifyWebhookSignature_compares_digests Samples.service
                  [0xD800] [0xFFFD])).
  vm_compute. reflexivity.
Defined.

(** ** The bytes that are hashed *)

Section Utf8.

Import Crypto.

Lemma land_high_low k n x :
  0 <= n -> 0 <= x < 2 ^ n -> Z.land (k * 2 ^ n) x = 0.
Proof.
  intros N X. apply Z.bits_inj'. intros i I.
  rewrite Z.land_spec, Z.bits_0.
  destruct (Z.lt_ge_cases i n) as [L | L].
  - rewrite Z.mul_pow2_bits_low by lia. reflexivity.
  - rewrite <- (Z.mod_small x (2 ^ n)) by lia.
    rewrite Z.mod_pow2_bits_high by lia. apply andb_false_r.
Qed.

Lemma lor_high_low k n x :
  0 <= n -> 0 <= x < 2 ^ n -> Z.lor (k * 2 ^ n) x = k * 2 ^ n + x.
Proof.
  intros N X. pose proof (Z.add_lor_land (k * 2 ^ n) x) as E.
  rewrite (land_high_low k n x N X) in E. lia.
Qed.

Lemma lor_C0 x : 0 <= x < 64 -> Z.lor 0xC0 x = 0xC0 + x.
Proof. intros X. apply (lor_high_low 3 6 x); [lia | exact X]. Qed.
Lemma lor_80 x : 0 <= x < 64 -> Z.lor 0x80 x = 0x80 + x.
Proof. intros X. apply (lor_high_low 2 6 x); [lia | exact X]. Qed.
Lemma lor_E0 x : 0 <= x < 16 -> Z.lor 0xE0 x = 0xE0 + x.
Proof. intros X. apply (lor_high_low 14 4 x); [lia | exact X]. Qed.
Lemma lor_F0 x : 0 <= x < 16 -> Z.lor 0xF0 x = 0xF0 + x.
Proof. intros X. apply (lor_high_low 15 4 x); [lia | exact X]. Qed.

Lemma land_3F x : Z.land x 0x3F = x mod 64.
Proof. change 0x3F with (Z.ones 6). rewrite Z.land_ones by lia. reflexivity. Qed.

Lemma shiftr_div x n : 0 <= n -> Z.shiftr x n = x / 2 ^ n.
Proof. intros N. apply Z.shiftr_div_pow2. exact N. Qed.

Lemma utf8_one c r : c < 0x80 -> utf8 (c :: r) = c :: utf8 r.
Proof. intros C. cbn [utf8]. apply Z.ltb_lt in C. rewrite C. reflexivity. Qed.

Lemma utf8_two c r :
  0x80 <= c < 0x800 ->
  utf8 (c :: r) = 0xC0 + c / 64 :: 0x80 + c mod 64 :: utf8 r.
Proof.
  intros C. cbn [utf8].
  replace (c <? 0x80) with false by (symmetry; apply Z.ltb_ge; lia).
  replace (c <? 0x800) with true by (symmetry; apply Z.ltb_lt; lia).
  rewrite land_3F, (shiftr_div c 6) by lia. change (2 ^ 6) with 64.
  rewrite lor_C0, lor_80; [reflexivity | |].
  - apply Z.mod_pos_bound. lia.
  - split; [apply Z.div_pos; lia | apply Z.div_lt_upper_bound; lia].
Qed.

Lemma utf8_three c r :
  0x800 <= c < 0x10000 ->
  is_high_surrogate c = false -> is_low_surrogate c = false ->
  utf8 (c :: r)
  = 0xE0 + c / 4096 :: 0x80 + (c / 64) mod 64 :: 0x80 + c mod 64 :: utf8 r.
Proof.
  intros C H L. cbn [utf8].
  replace (c <? 0x80) with false by (symmetry; apply Z.ltb_ge; lia).
  replace (c <? 0x800) with false by (symmetry; apply Z.ltb_ge; lia).
  rewrite H, L, !land_3F, (shiftr_div c 6), (shiftr_div c 12) by lia.
  change (2 ^ 6) with 64. change (2 ^ 12) with 4096.
  rewrite lor_E0, !lor_80; [reflexivity | | |].
  - apply Z.mod_pos_bound. lia.
  - apply Z.mod_pos_bound. lia.
  - split; [apply Z.div_pos; lia | apply Z.div_lt_upper_bound; lia].
Qed.

Lemma utf8_pair c d r :
  is_high_surrogate c = true -> is_low_surrogate d = true ->
  utf8 (c :: d :: r)
  = let cp := 0x10000 + (c - 0xD800) * 1024 + (d - 0xDC00) in
    0xF0 + cp / 262144 :: 0x80 + (cp / 4096) mod 64
      :: 0x80 + (cp / 64) mod 64 :: 0x80 + cp mod 64 :: utf8 r.
Proof.
  intros H L. cbn [utf8]. rewrite H, L.
  unfold is_high_surrogate, is_low_surrogate in H, L.
  apply andb_true_iff in H, L. rewrite !Z.leb_le in H, L.
  replace (c <? 0x80) with false by (symmetry; apply Z.ltb_ge; lia).
  replace (c <? 0x800) with false by (symmetry; apply Z.ltb_ge; lia).
  rewrite Z.shiftl_mul_pow2 by lia. change (2 ^ 10) with 1024.
  cbv zeta. set (cp := 0x10000 + (c - 0xD800) * 1024 + (d - 0xDC00)).
  assert (0x10000 <= cp < 0x110000) by (subst cp; lia).
  rewrite !land_3F, (shiftr_div cp 6), (shiftr_div cp 12), (shiftr_div cp 18)
    by lia.
  change (2 ^ 6) with 64. change (2 ^ 12) with 4096. change (2 ^ 18) with 262144.
  rewrite lor_F0, !lor_80; [reflexivity | | | |].
  - apply Z.mod_pos_bound. lia.
  - apply Z.mod_pos_bound. lia.
  - apply Z.mod_pos_bound. lia.
  - split; [apply Z.div_pos; lia | apply Z.div_lt_upper_bound; lia].
Qed.

Ltac dlia := Z.div_mod_to_equations; lia.

Lemma utf8_round_trip_bounded (n : nat) : forall s,
  (length s <= n)%nat -> well_formed s -> paired s = true ->
  utf16_of_utf8 (utf8 s) = s.
Proof.
  induction n as [|n IH]; intros [|c r] Ln W P; try reflexivity;
    [simpl in Ln; lia|].
  inversion W as [|? ? C W']; subst. unfold code_unit in C.
  simpl in Ln. cbn [paired] in P.
  destruct (is_high_surrogate c) eqn:H.
  - destruct r as [|d r]; [discriminate P|].
    apply andb_true_iff in P. destruct P as [L P].
    inversion W' as [|? ? D W'']; subst. unfold code_unit in D.
    rewrite (utf8_pair c d r H L). cbv zeta.
    unfold is_high_surrogate, is_low_surrogate in H, L.
    apply andb_true_iff in H, L. rewrite !Z.leb_le in H, L.
    remember (0x10000 + (c - 0xD800) * 1024 + (d - 0xDC00)) as cp eqn:Ecp.
    cbn [utf16_of_utf8].
    replace (0xF0 + cp / 262144 <? 0x80) with false
      by (symmetry; apply Z.ltb_ge; dlia).
    replace (0xF0 + cp / 262144 <? 0xE0) with false
      by (symmetry; apply Z.ltb_ge; dlia).
    replace (0xF0 + cp / 262144 <? 0xF0) with false
      by (symmetry; apply Z.ltb_ge; dlia).
    cbv zeta. rewrite (IH r) by (simpl in Ln; assumption || lia).
    f_equal; [|f_equal]; dlia.
  - apply andb_true_iff in P. destruct P as [L P].
    apply negb_true_iff in L.
    assert (R : utf16_of_utf8 (utf8 r) = r) by (apply IH; [lia | assumption..]).
    destruct (Z.lt_ge_cases c 0x80) as [A | A].
    + rewrite (utf8_one c r A). cbn [utf16_of_utf8].
      replace (c <? 0x80) with true by (symmetry; apply Z.ltb_lt; dlia).
      rewrite R. reflexivity.
    + destruct (Z.lt_ge_cases c 0x800) as [B | B].
      * rewrite (utf8_two c r) by dlia. cbn [utf16_of_utf8].
        replace (0xC0 + c / 64 <? 0x80) with false
          by (symmetry; apply Z.ltb_ge; dlia).
        replace (0xC0 + c / 64 <? 0xE0) with true
          by (symmetry; apply Z.ltb_lt; dlia).
        rewrite R. f_equal. dlia.
      * rewrite (utf8_three c r) by (dlia || assumption). cbn [utf16_of_utf8].
        replace (0xE0 + c / 4096 <? 0x80) with false
          by (symmetry; apply Z.ltb_ge; dlia).
        replace (0xE0 + c / 4096 <? 0xE0) with false
          by (symmetry; apply Z.ltb_ge; dlia).
        replace (0xE0 + c / 4096 <? 0xF0) with true
          by (symmetry; apply Z.ltb_lt; dlia).
        rewrite R. f_equal. dlia.
Qed.

End Utf8.

Lemma utf8_round_trip (s : jsstring) :
  well_formed s -> paired s = true -> utf16_of_utf8 (Crypto.utf8 s) = s.
Proof. apply (utf8_round_trip_bounded (length s)). apply le_n. Qed.

Lemma utf8_inj (p q : jsstring) :
  well_formed p -> well_formed q -> paired p = true -> paired q = true ->
  Crypto.utf8 p = Crypto.utf8 q -> p = q.
Proof.
  intros Wp Wq Pp Pq E.
  rewrite <- (utf8_round_trip p Wp Pp), <- (utf8_round_trip q Wq Pq), E.
  reflexivity.
Qed.

(** X4.  What [Hmac.update] hashes determines the payload, unpaired
    surrogates apart: two payload strings in which every surrogate is
    paired, and which are written as the same bytes, are the same string. *)
Theorem utf8_injective_on_paired (p q : jsstring) :
  well_formed p -> well_formed q -> paired p = true -> paired q = true ->
  Crypto.utf8 p = Crypto.utf8 q -> p = q.
Proof. apply utf8_inj. Qed.

Lemma utf8_injective_on_paired_witness :
  utf16_of_utf8 (Crypto.utf8 [0x41; 0xE9; 0x20AC; 0xD83D; 0xDE00])
  = [0x41; 0xE9; 0x20AC; 0xD83D; 0xDE00].
Proof.
  apply (utf8_injective_on_paired _ [0x41; 0xE9; 0x20AC; 0xD83D; 0xDE00]);
    try reflexivity;
    unfold well_formed; simpl; repeat constructor; unfold code_unit; lia.
Defined.

(** X5.  For payloads in which every surrogate is paired, the signature
    computed for one is accepted for the other only when they are the same
    string or when HMAC-SHA256 gives two different byte strings the same
    digest. *)
Theorem accepted_change_is_collision
    (this : Mercuryo.MercuryoService) (p q : jsstring) :
  well_formed p -> well_formed q -> paired p = true -> paired q = true ->
  (Mercuryo.verifyWebhookSignature this q (Mercuryo.calculatedSignature this p)
   = true
   <-> p = q
       \/ (Crypto.utf8 p <> Crypto.utf8 q
           /\ Crypto.hmac_sha256 (Crypto.utf8 (Mercuryo.webhookSecret this))
                (Crypto.utf8 q)
              = Crypto.hmac_sha256 (Crypto.utf8 (Mercuryo.webhookSecret this))
                  (Crypto.utf8 p))).
Proof.
  intros Wp Wq Pp Pq. rewrite accepted_iff_digests. split.
  - intros D.
    destruct (list_eq_dec Z.eq_dec (Crypto.utf8 p) (Crypto.utf8 q)) as [E | N].
    + left. apply utf8_inj; assumption.
    + right. split; assumption.
  - intros [-> | [_ D]]; [reflexivity | exact D].
Qed.

Lemma accepted_change_is_collision_witness :
  Mercuryo.verifyWebhookSignature Samples.service Samples.settlement_text
    (Mercuryo.calculatedSignature Samples.service Samples.settlement_text)
  = true.
Proof.
  apply (accepted_change_is_collision Samples.service
           Samples.settlement_text Samples.settlement_text);
    try reflexivity;
    try (unfold well_formed; simpl; repeat constructor; unfold code_unit; lia).
Defined.

(** ** [parseWebhook] at its edges *)

(** X6.  When no payload string can be had from a body that is not a string
    ([JSON.stringify] returns [undefined], as for [undefined] itself, or
    throws), [parseWebhook] fails before any verification: with the
    [TypeError] of [Hmac.update], or with the exception of
    [JSON.stringify]; no HMAC is computed, nothing is parsed, and the
    signature plays no part. *)
Theorem parseWebhook_without_payload
    (JSON_stringify : Mercuryo.JsValue -> Mercuryo.Completion (option jsstring))
    (JSON_parse : jsstring -> Mercuryo.Completion Mercuryo.JsValue)
    (this : Mercuryo.MercuryoService)
    (body : Mercuryo.JsValue) (signature : jsstring) :
  Mercuryo.typeof_string body = false ->
  (JSON_stringify body = Mercuryo.Return None ->
   Mercuryo.parseWebhook JSON_stringify JSON_parse this body signature
   = ([Mercuryo.CallStringify body],
      Mercuryo.Throw (Mercuryo.TypeError "ERR_INVALID_ARG_TYPE")))
  /\ (forall e,
      JSON_stringify body = Mercuryo.Throw e ->
      Mercuryo.parseWebhook JSON_stringify JSON_parse this body signature
      = ([Mercuryo.CallStringify body], Mercuryo.Throw e)).
Proof.
  intros T. rewrite (parseWebhook_other _ _ _ _ _ T).
  split; [intros -> | intros e ->]; reflexivity.
Qed.

Lemma parseWebhook_without_payload_witness :
  let stringify := fun v : Mercuryo.JsValue =>
    match v with
    | Mercuryo.JsUndefined => Mercuryo.Return None
    | _ => Mercuryo.Return (Some Samples.settlement_text)
    end in
  let parse := fun _ : jsstring => Mercuryo.Return Samples.settlement in
  Mercuryo.parseWebhook stringify parse Samples.service Mercuryo.JsUndefined
    Samples.settlement_signature
  = ([Mercuryo.CallStringify Mercuryo.JsUndefined],
     Mercuryo.Throw (Mercuryo.TypeError "ERR_INVALID_ARG_TYPE")).
Proof.
  intros stringify parse.
  exact (proj1 (parseWebhook_without_payload stringify parse Samples.service
                  Mercuryo.JsUndefined Samples.settlement_signature eq_refl)
           eq_refl).
Defined.

Section Discipline.

Local Set Warnings "-notation-overridden".
Import Mercuryo.
Variable JSON_stringify : JsValue -> Completion (option jsstring).
Variable JSON_parse : jsstring -> Completion JsValue.
Variable this : MercuryoService.

Local Abbreviation run body signature :=
  (Mercuryo.parseWebhook JSON_stringify JSON_parse this body signature).
Local Abbreviation payload body :=
  (outcome (Mercuryo.payload_of JSON_stringify body)).

(** The shapes a trace can have. *)
Lemma trace_shapes (body : JsValue) (signature : jsstring) :
  match payload body with
  | Return (Some p) =>
      body = JsString p
      /\ (trace (run body signature) = [CallHmac p]
          \/ trace (run body signature) = [CallHmac p; CallParse p])
      \/ typeof_string body = false
         /\ trace (run body signature) = [CallStringify body; CallHmac p]
  | _ => typeof_string body = false
         /\ trace (run body signature) = [CallStringify body]
  end.
Proof.
  destruct (typeof_string body) eqn:T.
  - destruct body; try discriminate T. rewrite parseWebhook_string. simpl.
    left. split; [reflexivity|].
    destruct (verifyWebhookSignature this s signature); simpl; auto.
  - rewrite (parseWebhook_other _ _ _ _ _ T).
    assert (P : payload body = JSON_stringify body)
      by (destruct body; try discriminate T; reflexivity).
    rewrite P. destruct (JSON_stringify body) as [[p|]|e]; simpl; auto.
Qed.

Lemma trace_discipline (body : JsValue) (signature : jsstring) :
  (length (trace (run body signature)) <= 2)%nat
  /\ (forall v, In (CallStringify v) (trace (run body signature)) ->
                v = body /\ typeof_string body = false)
  /\ (forall p, In (CallHmac p) (trace (run body signature))
                <-> payload body = Return (Some p)).
Proof.
  pose proof (trace_shapes body signature) as S.
  destruct (payload body) as [[p|]|e].
  - destruct S as [[B [-> | ->]] | [T ->]]; simpl;
      (split; [lia|]); (split; [|intros q; split]);
      try (intros E; injection E as ->; tauto);
      intuition (try discriminate; congruence).
  - destruct S as [T ->]. simpl. split; [lia|].
    split; [|intros q; split];
      intuition (try discriminate; congruence).
  - destruct S as [T ->]. simpl. split; [lia|].
    split; [|intros q; split];
      intuition (try discriminate; congruence).
Qed.

End Discipline.

(** X7.  A run of [parseWebhook] makes at most two calls in all, out of
    [JSON.stringify], the HMAC and [JSON.parse]; [JSON.stringify] is called
    on nothing but the body itself, and never on a string body; the HMAC is
    computed exactly when there is a payload string, and over that string. *)
Theorem parseWebhook_trace_discipline
    (JSON_stringify : Mercuryo.JsValue -> Mercuryo.Completion (option jsstring))
    (JSON_parse : jsstring -> Mercuryo.Completion Mercuryo.JsValue)
    (this : Mercuryo.MercuryoService)
    (body : Mercuryo.JsValue) (signature : jsstring) :
  let run := Mercuryo.parseWebhook JSON_stringify JSON_parse this body signature in
  (length (Mercuryo.trace run) <= 2)%nat
  /\ (forall v,
      In (Mercuryo.CallStringify v) (Mercuryo.trace run) ->
      v = body /\ Mercuryo.typeof_string body = false)
  /\ (forall p,
      In (Mercuryo.CallHmac p) (Mercuryo.trace run)
      <-> Mercuryo.outcome (Mercuryo.payload_of JSON_stringify body)
          = Mercuryo.Return (Some p)).
Proof. apply trace_discipline. Qed.

Lemma parseWebhook_trace_discipline_witness :
  let stringify := fun _ : Mercuryo.JsValue =>
    Mercuryo.Return (A := option jsstring) None in
  let parse := fun _ : jsstring => Mercuryo.Return Samples.settlement in
  In (Mercuryo.CallStringify Mercuryo.JsNull)
     (Mercuryo.trace
        (Mercuryo.parseWebhook stringify parse Samples.service
           Mercuryo.JsNull Samples.settlement_signature))
  /\ Mercuryo.typeof_string Mercuryo.JsNull = false.
Proof.
  intros stringify parse.
  assert (I : In (Mercuryo.CallStringify Mercuryo.JsNull)
                (Mercuryo.trace
                   (Mercuryo.parseWebhook stringify parse Samples.service
                      Mercuryo.JsNull Samples.settlement_signature)))
    by (left; reflexivity).
  split; [exact I|].
  exact (proj2 (proj1 (proj2 (parseWebhook_trace_discipline stringify parse
                                Samples.service Mercuryo.JsNull
                                Samples.settlement_signature))
                  Mercuryo.JsNull I)).
Defined.

(** ** The module singleton *)

Section ModuleSingleton.

Local Set Warnings "-notation-overridden".
Import Mercuryo MercuryoApi.

Lemma calls_cached (envs : list ProcessEnv) (service : MercuryoService) :
  calls envs (Some service) = repeat (Return service) (length envs).
Proof. induction envs as [|env envs IH]; simpl; [|rewrite IH]; reflexivity. Qed.

Lemma calls_length envs st : length (calls envs st) = length envs.
Proof.
  revert st; induction envs as [|env envs IH]; intros st; simpl; [reflexivity|].
  destruct (getMercuryoService env st) as [next r]. simpl. rewrite IH. reflexivity.
Qed.

Lemma nth_error_repeat_eq {A} (a : A) n i x :
  nth_error (repeat a n) i = Some x -> x = a.
Proof. intros E. apply nth_error_In in E. exact (repeat_spec _ _ _ E). Qed.

(** From the empty module variable: a result is either the configuration
    error, under an environment that misses a variable, or the instance
    built from the first complete environment. *)
Lemma calls_fresh (envs : list ProcessEnv) : forall i j a,
  (i <= j)%nat -> (j < length envs)%nat ->
  nth_error (calls envs None) i = Some (Return a) ->
  nth_error (calls envs None) j = Some (Return a)
  /\ exists k env,
       (k <= i)%nat /\ nth_error envs k = Some env
       /\ missing env = false /\ a = service_of env
       /\ forall h, (h < k)%nat -> nth_error (calls envs None) h = Some config_error.
Proof.
  induction envs as [|env envs IH]; intros i j a Lij Lj R; [simpl in Lj; lia|].
  simpl in R |- *. unfold getMercuryoService in *.
  destruct (missing env) eqn:M.
  - destruct i as [|i]; [discriminate R|]. destruct j as [|j]; [lia|].
    simpl in R, Lj |- *.
    destruct (IH i j a) as (Rj & k & e & Lk & Ek & Mk & Ak & Hk);
      [lia | lia | exact R |].
    split; [exact Rj|]. exists (S k), e. repeat split; try assumption; [lia|].
    intros [|h] Lh; [reflexivity|]. apply Hk. lia.
  - rewrite calls_cached in *.
    assert (a = service_of env) as ->.
    { destruct i as [|i]; simpl in R; [congruence|].
      apply nth_error_repeat_eq in R. congruence. }
    split.
    + destruct j as [|j]; [reflexivity|]. simpl.
      apply nth_error_repeat. simpl in Lj. lia.
    + exists 0%nat, env. repeat split; try assumption; [lia|]. intros h Lh. lia.
Qed.

Lemma falsy_iff v : falsy v = true <-> v = None \/ v = Some [].
Proof.
  destruct v as [[|c s]|]; simpl; split; try tauto; try discriminate;
    intros [E | E]; discriminate E.
Qed.

Lemma missing_iff env :
  missing env = true
  <-> (MERCURYO_API_KEY env = None \/ MERCURYO_API_KEY env = Some [])
      \/ (MERCURYO_SECRET env = None \/ MERCURYO_SECRET env = Some [])
      \/ (MERCURYO_WEBHOOK_SECRET env = None
          \/ MERCURYO_WEBHOOK_SECRET env = Some []).
Proof.
  unfold missing. rewrite !orb_true_iff, !falsy_iff. tauto.
Qed.

End ModuleSingleton.

(** X8.  Once a call of [getMercuryoService] has returned an instance, every
    later call returns that same instance, whatever the environment holds
    by then; the instance was built from the first environment that had all
    three variables, and every call before that one failed with the
    configuration error. *)
Theorem getMercuryoService_caches_first_instance
    (envs : list MercuryoApi.ProcessEnv) (i j : nat) (a : Mercuryo.MercuryoService) :
  (i <= j)%nat -> (j < length envs)%nat ->
  nth_error (MercuryoApi.calls envs None) i = Some (Mercuryo.Return a) ->
  nth_error (MercuryoApi.calls envs None) j = Some (Mercuryo.Return a)
  /\ exists k env,
       (k <= i)%nat /\ nth_error envs k = Some env
       /\ MercuryoApi.missing env = false /\ a = MercuryoApi.service_of env
       /\ forall h, (h < k)%nat ->
            nth_error (MercuryoApi.calls envs None) h
            = Some MercuryoApi.config_error.
Proof. apply calls_fresh. Qed.

Lemma getMercuryoService_caches_first_instance_witness :
  let unset := {| MercuryoApi.MERCURYO_API_KEY := Some (js "key");
                  MercuryoApi.MERCURYO_SECRET := None;
                  MercuryoApi.MERCURYO_WEBHOOK_SECRET := Some (js "whsec_test") |} in
  let first := {| MercuryoApi.MERCURYO_API_KEY := Some (js "key");
                  MercuryoApi.MERCURYO_SECRET := Some (js "secret");
                  MercuryoApi.MERCURYO_WEBHOOK_SECRET := Some (js "whsec_test") |} in
  let rotated := {| MercuryoApi.MERCURYO_API_KEY := Some (js "key2");
                    MercuryoApi.MERCURYO_SECRET := Some (js "secret2");
                    MercuryoApi.MERCURYO_WEBHOOK_SECRET := Some (js "whsec_2") |} in
  nth_error (MercuryoApi.calls [unset; first; rotated; unset] None) 3
  = Some (Mercuryo.Return Samples.service).
Proof.
  intros unset first rotated.
  apply (getMercuryoService_caches_first_instance
           [unset; first; rotated; unset] 1 3 Samples.service);
    [repeat constructor | repeat constructor | reflexivity].
Defined.

(** X9.  With no instance yet, [getMercuryoService] fails exactly when one
    of the three variables is unset or the empty string, [MERCURYO_SECRET]
    included; the failure leaves no instance behind, so a later call under
    a complete environment succeeds. *)
Theorem getMercuryoService_configuration_missing (env : MercuryoApi.ProcessEnv) :
  ((MercuryoApi.MERCURYO_API_KEY env = None
    \/ MercuryoApi.MERCURYO_API_KEY env = Some [])
   \/ (MercuryoApi.MERCURYO_SECRET env = None
       \/ MercuryoApi.MERCURYO_SECRET env = Some [])
   \/ (MercuryoApi.MERCURYO_WEBHOOK_SECRET env = None
       \/ MercuryoApi.MERCURYO_WEBHOOK_SECRET env = Some [])
   <-> MercuryoApi.getMercuryoService env None
       = (None, MercuryoApi.config_error))
  /\ (forall env',
      MercuryoApi.missing env = true -> MercuryoApi.missing env' = false ->
      MercuryoApi.calls [env; env'] None
      = [MercuryoApi.config_error;
         Mercuryo.Return (MercuryoApi.service_of env')]).
Proof.
  split.
  - rewrite <- missing_iff. unfold MercuryoApi.getMercuryoService.
    destruct (MercuryoApi.missing env); split; try reflexivity; discriminate.
  - intros env' M M'. simpl. unfold MercuryoApi.getMercuryoService.
    rewrite M, M'. reflexivity.
Qed.

Lemma getMercuryoService_configuration_missing_witness :
  let empty := {| MercuryoApi.MERCURYO_API_KEY := Some (js "key");
                  MercuryoApi.MERCURYO_SECRET := Some [];
                  MercuryoApi.MERCURYO_WEBHOOK_SECRET := Some (js "whsec_test") |} in
  MercuryoApi.getMercuryoService empty None = (None, MercuryoApi.config_error).
Proof.
  intros empty.
  apply (proj1 (proj1 (getMercuryoService_configuration_missing empty))).
  right. left. right. reflexivity.
Defined.

(** X10.  The webhook secret a service verifies with is the one the
    environment held when the instance was created: under any later
    environment the call returns an instance that accepts exactly the
    signatures made with that first secret. *)
Theorem getMercuryoService_keeps_first_secret
    (env later : MercuryoApi.ProcessEnv) (payload signature : jsstring) :
  MercuryoApi.missing env = false ->
  exists service,
    MercuryoApi.calls [env; later] None
    = [Mercuryo.Return service; Mercuryo.Return service]
    /\ (Mercuryo.verifyWebhookSignature service payload signature = true
        <-> signature
            = Crypto.hex
                (Crypto.hmac_sha256
                   (Crypto.utf8
                      (MercuryoApi.value (MercuryoApi.MERCURYO_WEBHOOK_SECRET env)))
                   (Crypto.utf8 payload))).
Proof.
  intros M. exists (MercuryoApi.service_of env). split.
  - simpl. unfold MercuryoApi.getMercuryoService. rewrite M. reflexivity.
  - apply verify_iff.
Qed.

Lemma getMercuryoService_keeps_first_secret_witness :
  let first := {| MercuryoApi.MERCURYO_API_KEY := Some (js "key");
                  MercuryoApi.MERCURYO_SECRET := Some (js "secret");
                  MercuryoApi.MERCURYO_WEBHOOK_SECRET := Some (js "whsec_test") |} in
  let rotated := {| MercuryoApi.MERCURYO_API_KEY := Some (js "key");
                    MercuryoApi.MERCURYO_SECRET := Some (js "secret");
                    MercuryoApi.MERCURYO_WEBHOOK_SECRET := Some (js "whsec_2") |} in
  exists service,
    MercuryoApi.calls [first; rotated] None
    = [Mercuryo.Return service; Mercuryo.Return service]
    /\ Mercuryo.verifyWebhookSignature service Samples.settlement_text
         Samples.settlement_signature = true.
Proof.
  intros first rotated.
  destruct (getMercuryoService_keeps_first_secret first rotated
              Samples.settlement_text Samples.settlement_signature eq_refl)
    as (service & C & V).
  exists service. split; [exact C|]. apply V. vm_compute. reflexivity.
Defined.

(** ** Outbound calls *)

Section Api.

Local Set Warnings "-notation-overridden".
Import Mercuryo MercuryoApi.

Lemma prefixes_differ (m m' : jsstring) : create_failed ++ m <> status_failed ++ m'.
Proof. intros E. discriminate E. Qed.

Lemma verify_call_secret (a b : MercuryoService) payload signature :
  webhookSecret a = webhookSecret b ->
  verify_call a payload signature = verify_call b payload signature.
Proof.
  intros E. unfold verify_call, verifyWebhookSignature, calculatedSignature.
  rewrite E. reflexivity.
Qed.

Lemma client_key (a b : MercuryoService) :
  apiKey a = apiKey b -> baseUrl a = baseUrl b -> client a = client b.
Proof. intros K U. unfold client. rewrite K, U. reflexivity. Qed.

End Api.

(** X11.  The credentials stay apart.  Webhook parsing and verification
    depend on the service through its webhook secret alone; the requests of
    [createPayment] and [getPaymentStatus], and so their results, depend on
    it through the API key and the base URL alone.  The field [secret]
    bears on nothing. *)
Theorem secrets_stay_apart (a b : Mercuryo.MercuryoService) :
  (Mercuryo.webhookSecret a = Mercuryo.webhookSecret b ->
   forall stringify parse body signature,
     Mercuryo.parseWebhook stringify parse a body signature
     = Mercuryo.parseWebhook stringify parse b body signature)
  /\ (Mercuryo.apiKey a = Mercuryo.apiKey b ->
      Mercuryo.baseUrl a = Mercuryo.baseUrl b ->
      forall adapter params paymentId,
        MercuryoApi.createPayment adapter a params
        = MercuryoApi.createPayment adapter b params
        /\ MercuryoApi.getPaymentStatus adapter a paymentId
           = MercuryoApi.getPaymentStatus adapter b paymentId).
Proof.
  split.
  - intros E stringify parse body signature.
    unfold Mercuryo.parseWebhook, Mercuryo.bind.
    destruct (Mercuryo.payload_of stringify body) as [t [p|e]]; [|reflexivity].
    rewrite (verify_call_secret a b _ _ E). reflexivity.
  - intros K U adapter params paymentId.
    unfold MercuryoApi.createPayment, MercuryoApi.getPaymentStatus.
    rewrite (client_key a b K U). split; reflexivity.
Qed.

Lemma secrets_stay_apart_witness :
  let rotated :=
    {| Mercuryo.apiKey := js "key"; Mercuryo.secret := js "another secret";
       Mercuryo.webhookSecret := js "whsec_test";
       Mercuryo.baseUrl := js "https://api.mercuryo.io" |} in
  let stringify := fun _ : Mercuryo.JsValue =>
    Mercuryo.Return (Some Samples.settlement_text) in
  let parse := fun _ : jsstring => Mercuryo.Return Samples.settlement in
  let down := fun _ : MercuryoApi.HttpRequest =>
    MercuryoApi.Failure (js "Network Error") in
  Mercuryo.parseWebhook stringify parse Samples.service Samples.settlement
    Samples.settlement_signature
  = Mercuryo.parseWebhook stringify parse rotated Samples.settlement
      Samples.settlement_signature
  /\ MercuryoApi.getPaymentStatus down Samples.service (js "p1")
     = MercuryoApi.getPaymentStatus down rotated (js "p1").
Proof.
  intros rotated stringify parse down. split.
  - exact (proj1 (secrets_stay_apart Samples.service rotated) eq_refl
             stringify parse Samples.settlement Samples.settlement_signature).
  - exact (proj2 (proj2 (secrets_stay_apart Samples.service rotated)
                    eq_refl eq_refl down
                    {| MercuryoApi.amount := 0; MercuryoApi.currency := [];
                       MercuryoApi.userId := []; MercuryoApi.plan := [];
                       MercuryoApi.returnUrl := [] |} (js "p1"))).
Defined.

(** X12.  [createPayment] and [getPaymentStatus] make one request each,
    also when it fails.  A rejection carries the message of the failed
    request after the fixed text of the operation, so that the message can
    be read back from it; and no rejection of [createPayment] has the
    message of a rejection of [getPaymentStatus]. *)
Theorem api_rejections
    (adapter adapter' : MercuryoApi.HttpRequest -> MercuryoApi.AxiosOutcome)
    (this this' : Mercuryo.MercuryoService)
    (params : MercuryoApi.CreatePaymentParams) (paymentId : jsstring) :
  let created := MercuryoApi.createPayment adapter this params in
  let fetched := MercuryoApi.getPaymentStatus adapter' this' paymentId in
  (length (fst created) = 1%nat /\ length (fst fetched) = 1%nat)
  /\ (forall m,
      snd created = MercuryoApi.Rejected m ->
      exists req cause,
        fst created = [req] /\ adapter req = MercuryoApi.Failure cause
        /\ m = MercuryoApi.create_failed ++ cause
        /\ forall cause', m = MercuryoApi.create_failed ++ cause' -> cause' = cause)
  /\ (forall m,
      snd fetched = MercuryoApi.Rejected m ->
      exists req cause,
        fst fetched = [req] /\ adapter' req = MercuryoApi.Failure cause
        /\ m = MercuryoApi.status_failed ++ cause
        /\ forall cause', m = MercuryoApi.status_failed ++ cause' -> cause' = cause)
  /\ (forall m m',
      snd created = MercuryoApi.Rejected m ->
      snd fetched = MercuryoApi.Rejected m' -> m <> m').
Proof.
  cbv zeta. unfold MercuryoApi.createPayment, MercuryoApi.getPaymentStatus.
  set (post := {| MercuryoApi.via := _; MercuryoApi.verb := MercuryoApi.POST |}).
  set (get := {| MercuryoApi.via := _; MercuryoApi.verb := MercuryoApi.GET |}).
  assert (Cause : forall (prefix m c : jsstring) req
                     (net : MercuryoApi.HttpRequest -> MercuryoApi.AxiosOutcome),
             net req = MercuryoApi.Failure c ->
             MercuryoApi.Rejected (A := Mercuryo.JsValue) (prefix ++ c)
             = MercuryoApi.Rejected m ->
             exists r cause,
               [req] = [r] /\ net r = MercuryoApi.Failure cause
               /\ m = prefix ++ cause
               /\ forall cause', m = prefix ++ cause' -> cause' = cause).
  { intros prefix m c req net N E. injection E as <-. exists req, c.
    repeat split; try assumption.
    intros cause' E'. apply app_inv_head in E'. congruence. }
  destruct (adapter post) as [d | c] eqn:P;
    destruct (adapter' get) as [d' | c'] eqn:G; cbn [fst snd length];
    (split; [split; reflexivity|]); (split; [|split]);
    try (intros m E; discriminate E);
    try (intros m m' E E'; discriminate E || discriminate E');
    try (intros m E; eapply Cause; eassumption).
  intros m m' E E'. injection E as <-. injection E' as <-. apply prefixes_differ.
Qed.

Lemma api_rejections_witness :
  let down := fun _ : MercuryoApi.HttpRequest =>
    MercuryoApi.Failure (js "Network Error") in
  let params :=
    {| MercuryoApi.amount := 500; MercuryoApi.currency := js "EUR";
       MercuryoApi.userId := js "u1"; MercuryoApi.plan := js "monthly";
       MercuryoApi.returnUrl := js "https://example.com/return" |} in
  exists req cause,
    fst (MercuryoApi.createPayment down Samples.service params) = [req]
    /\ down req = MercuryoApi.Failure cause
    /\ js "Failed to create Mercuryo payment: Network Error"
       = MercuryoApi.create_failed ++ cause.
Proof.
  intros down params.
  destruct (proj1 (proj2 (api_rejections down down Samples.service
                            Samples.service params (js "p1")))
              (js "Failed to create Mercuryo payment: Network Error") eq_refl)
    as (req & cause & R & F & M & _).
  exists req, cause. split; [exact R | split; [exact F | exact M]].
Defined.
